(** * neuralgym: GAN losses, gradient penalty, spectral normalisation and the
      identity-model restorer

    A shallow embedding of [neuralgym/ops/gan_ops.py] and
    [neuralgym/callbacks/identity_model_restorer.py].

    Tensors are dense row-major arrays, as in the framework: a shape and the
    flat list of entries.  The type of the entries is a parameter.  Code whose
    behaviour depends on rounding is polymorphic in the arithmetic of its
    dtype and is instantiated with binary32, the float32 of the graph
    ([SpecFloat] with 24 bits of precision), and with exact arithmetic on
    [R].  The losses, the gradient penalty and the spectral normalisation are
    analysed in exact arithmetic: their statements are about the real-number
    functional model of the float32 graph, in which rounding, overflow,
    infinities and NaN are not represented, and they are kept to what does
    not hinge on the last bits.  The mean of an empty tensor is NaN in the
    framework; theorems about a mean assume the tensor non-empty.  Quotients
    are written out in the statements, so a divisor that may vanish is
    visible there.

    Python exceptions are the [Raise] results of a state-and-error monad over
    the [world]: the framework's variable store, its summary collection, the
    local file system, the callback log and the (read-only) network. *)

From Stdlib Require Import Reals Lra Lia List ZArith NArith String Bool.
From Stdlib Require Import SpecFloat.
From stdpp Require Import base gmap strings.
Import ListNotations.

Local Open Scope R_scope.

(* ===================================================================== *)
(** ** Exceptions *)

Inductive error : Type :=
| ValueError        (* shape errors raised while the graph is built *)
| NotFoundError     (* a checkpoint file or a checkpoint key is absent *)
| InvalidArgumentError (* a checkpoint tensor of the wrong shape *)
| DownloadError     (* the URL could not be fetched *)
| OSError.          (* the cache directory cannot be written *)

Inductive result (A : Type) : Type :=
| Ok (a : A)
| Raise (e : error).
Arguments Ok {A} a.
Arguments Raise {A} e.

Definition is_ok {A} (r : result A) : bool :=
  match r with Ok _ => true | Raise _ => false end.

Definition rbind {A B} (r : result A) (k : A -> result B) : result B :=
  match r with Ok a => k a | Raise e => Raise e end.

(* ===================================================================== *)
(** ** Tensors *)

Module Tensor.

(** A tensor with entries of type [A]. *)
Record gtensor (A : Type) : Type := Tensor { shape : list nat; data : list A }.
Arguments Tensor {A} _ _.
Arguments shape {A} _.
Arguments data {A} _.

(** Tensors of real numbers. *)
Abbreviation tensor := (gtensor R).

(** binary32 numbers, the entries of a float32 tensor. *)
Abbreviation float32 := spec_float.

(** The arithmetic of a dtype: its zero, its sum, difference and product, and
    the number in [0, 1) that [tf.random_uniform] makes of 23 random mantissa
    bits. *)
Class Arithmetic (A : Type) : Type := {
  ar_zero : A;
  ar_add : A -> A -> A;
  ar_sub : A -> A -> A;
  ar_mul : A -> A -> A;
  ar_uniform : N -> A
}.

(** Exact arithmetic on the reals. *)
#[export] Instance exact : Arithmetic R := {|
  ar_zero := 0;
  ar_add := Rplus;
  ar_sub := Rminus;
  ar_mul := Rmult;
  ar_uniform := fun bits => IZR (Z.of_N (bits mod 8388608)) / 8388608
|}.

(** IEEE 754 binary32 with rounding to nearest, ties to even. *)
#[export] Instance binary32 : Arithmetic float32 := {|
  ar_zero := S754_zero false;
  ar_add := SFadd 24 128;
  ar_sub := SFsub 24 128;
  ar_mul := SFmul 24 128;
  ar_uniform := fun bits =>
    binary_normalize 24 128 (Z.of_N (bits mod 8388608)) (-23) false
|}.

(** Number of entries of a shape. *)
Definition numel (s : list nat) : nat := fold_right Nat.mul 1%nat s.

(** A tensor is well formed when it stores as many entries as its shape says. *)
Definition wf {A} (t : gtensor A) : Prop := length (data t) = numel (shape t).

Definition wfb {A} (t : gtensor A) : bool :=
  (length (data t) =? numel (shape t))%nat.

Definition scalar (r : R) : tensor := Tensor [] [r].

(** The single entry of a one-entry tensor. *)
Definition item (t : tensor) : R := nth 0 (data t) 0.

Definition Rsum (l : list R) : R := fold_right Rplus 0 l.

(** *** Elementwise operations with one tensor argument

    A Python scalar combined with a tensor ([1 - pos], [.5 * x],
    [x / (n + epsilon)]) broadcasts to every entry. *)
Definition tmap (f : R -> R) (t : tensor) : tensor :=
  Tensor (shape t) (map f (data t)).

Definition ones_like (t : tensor) : tensor := tmap (fun _ => 1) t.
Definition zeros_like (t : tensor) : tensor := tmap (fun _ => 0) t.
Definition square (t : tensor) : tensor := tmap (fun x => x * x) t.
Definition tsqrt (t : tensor) : tensor := tmap sqrt t.
Definition relu (t : tensor) : tensor := tmap (fun x => Rmax x 0) t.
Definition tabs (t : tensor) : tensor := tmap Rabs t.
Definition sigmoid (t : tensor) : tensor := tmap (fun x => 1 / (1 + exp (- x))) t.
Definition squared_difference (t : tensor) (value : R) : tensor :=
  tmap (fun x => (x - value) * (x - value)) t.

(** *** Full reductions *)
Definition reduce_sum (t : tensor) : R := Rsum (data t).
Definition reduce_mean (t : tensor) : R :=
  Rsum (data t) / INR (length (data t)).

(** *** Row-major indexing *)
Fixpoint unravel (s : list nat) (k : nat) : list nat :=
  match s with
  | [] => []
  | _ :: s' => (k / numel s')%nat :: unravel s' (k mod numel s')
  end.

Fixpoint ravel (s idx : list nat) : nat :=
  match s, idx with
  | _ :: s', i :: idx' => (i * numel s' + ravel s' idx')%nat
  | _, _ => 0%nat
  end.

(** *** Broadcasting of two tensors (shapes aligned on the right; a dimension
    of size one is stretched) *)
Definition pad_shape (r : nat) (s : list nat) : list nat :=
  repeat 1%nat (r - length s) ++ s.

Fixpoint bshape (s1 s2 : list nat) : result (list nat) :=
  match s1, s2 with
  | [], [] => Ok []
  | d1 :: s1', d2 :: s2' =>
      rbind (bshape s1' s2') (fun s =>
        if (d1 =? d2)%nat then Ok (d1 :: s)
        else if (d1 =? 1)%nat then Ok (d2 :: s)
        else if (d2 =? 1)%nat then Ok (d1 :: s)
        else Raise ValueError)
  | _, _ => Raise ValueError
  end.

Definition broadcast_shape (s1 s2 : list nat) : result (list nat) :=
  let r := Nat.max (length s1) (length s2) in
  bshape (pad_shape r s1) (pad_shape r s2).

Fixpoint bindex (s idx : list nat) : list nat :=
  match s, idx with
  | d :: s', i :: idx' => (if (d =? 1)%nat then 0%nat else i) :: bindex s' idx'
  | _, _ => []
  end.

Definition bget {A} (d : A) (t : gtensor A) (r : nat) (idx : list nat) : A :=
  let s := pad_shape r (shape t) in
  nth (ravel s (bindex s idx)) (data t) d.

Definition broadcast2 {A} (d : A) (f : A -> A -> A) (a b : gtensor A)
  : result (gtensor A) :=
  rbind (broadcast_shape (shape a) (shape b)) (fun s =>
    let r := length s in
    Ok (Tensor s (map (fun k => let idx := unravel s k in
                                f (bget d a r idx) (bget d b r idx))
                      (seq 0 (numel s))))).

(** [a + b], [a - b] and [a * b] in the arithmetic of the dtype. *)
Definition tadd {A} `{Arithmetic A} : gtensor A -> gtensor A -> result (gtensor A) :=
  broadcast2 ar_zero ar_add.
Definition tsub {A} `{Arithmetic A} : gtensor A -> gtensor A -> result (gtensor A) :=
  broadcast2 ar_zero ar_sub.
Definition tmul {A} `{Arithmetic A} : gtensor A -> gtensor A -> result (gtensor A) :=
  broadcast2 ar_zero ar_mul.
Definition tdiv : tensor -> tensor -> result tensor := broadcast2 0 Rdiv.

(** *** Reshape: the row-major data is kept; at most one dimension may be
    [-1] and is inferred from the number of entries. *)
Definition known_dims (dims : list Z) : list Z :=
  List.filter (fun d => negb (d =? -1)%Z) dims.

Definition reshape {A} (t : gtensor A) (dims : list Z) : result (gtensor A) :=
  let n := length (data t) in
  let known := numel (map Z.to_nat (known_dims dims)) in
  if forallb (fun d => (-1 <=? d)%Z) dims then
    match (length dims - length (known_dims dims))%nat with
    | O => if (n =? known)%nat
           then Ok (Tensor (map Z.to_nat dims) (data t))
           else Raise ValueError
    | S O => if (known =? 0)%nat then Raise ValueError
             else if (n mod known =? 0)%nat
             then Ok (Tensor (map (fun d => if (d =? -1)%Z then (n / known)%nat
                                            else Z.to_nat d) dims)
                             (data t))
             else Raise ValueError
    | _ => Raise ValueError
    end
  else Raise ValueError.

(** [get_shape().as_list()] followed by [tf.reshape(_, shape)]. *)
Definition reshape_to {A} (t : gtensor A) (s : list nat)
  : result (gtensor A) :=
  reshape t (map Z.of_nat s).

(** *** Transposition (all axes reversed, the default permutation) *)
Definition transpose (t : tensor) : tensor :=
  let s := shape t in
  Tensor (rev s)
         (map (fun k => nth (ravel s (rev (unravel (rev s) k))) (data t) 0)
              (seq 0 (numel (rev s)))).

(** *** Matrix product of two rank-2 tensors *)
Definition matmul (a b : tensor) : result tensor :=
  match shape a, shape b with
  | [p; q], [q'; r] =>
      if (q =? q')%nat then
        Ok (Tensor [p; r]
              (flat_map (fun i =>
                 map (fun j =>
                        Rsum (map (fun k => nth (i * q + k) (data a) 0
                                            * nth (k * r + j) (data b) 0)
                                  (seq 0 q)))
                     (seq 0 r))
                 (seq 0 p)))
      else Raise ValueError
  | _, _ => Raise ValueError
  end.

(** *** Reduction over every axis but the first: [axis=[1, 2, 3]] of a rank-4
    tensor.  Any other rank makes one of the axes out of range. *)
Fixpoint chunks (fuel size : nat) (l : list R) : list (list R) :=
  match fuel with
  | O => []
  | S fuel' => firstn size l :: chunks fuel' size (skipn size l)
  end.

Definition reduce_sum_123 (t : tensor) : result tensor :=
  match shape t with
  | [b; h; w; c] =>
      Ok (Tensor [b] (map Rsum (chunks b (h * w * c) (data t))))
  | _ => Raise ValueError
  end.

End Tensor.
Import Tensor.

(* ===================================================================== *)
(** ** The framework state and the monad of graph code *)

Module Framework.

(** A variable handle: its full name in the store and its static shape. *)
Record variable : Type := Variable_ { var_name : string; var_shape : list nat }.

(** What a file on disk holds: downloaded weights, or a checkpoint that maps
    variable names to saved tensors. *)
Inductive file : Type :=
| WeightsFile (payload : list Byte.byte)
| CheckpointFile (saved : gmap string tensor).

Record world : Type := World {
  variables : gmap string tensor;       (* persistent variable values *)
  summaries : list (string * R);        (* scalar summaries recorded so far *)
  files : gmap string file;             (* local file system *)
  cache_writable : bool;                (* can the cache directory be written *)
  network : gmap string (list Byte.byte); (* what each URL serves, if anything *)
  log : list string;                    (* lines written by callback_log *)
  scope : string;                       (* current variable scope prefix *)
  truncated_normal : nat -> R;          (* draws of the initializer *)
  random_bits : nat -> N;               (* mantissa bits drawn by
                                           tf.random_uniform *)
  assigned_before_abort : variable -> bool
                                        (* has the assignment of a variable
                                           run when a failing restore step
                                           is aborted *)
}.

(** A tensor of the given shape filled from a source of random draws. *)
Definition sample {A} (source : nat -> A) (s : list nat) : gtensor A :=
  Tensor s (map source (seq 0 (numel s))).

Definition set_variables (f : gmap string tensor -> gmap string tensor)
  (w : world) : world :=
  World (f (variables w)) (summaries w) (files w) (cache_writable w)
        (network w) (log w) (scope w) (truncated_normal w) (random_bits w)
        (assigned_before_abort w).

Definition set_summaries (f : list (string * R) -> list (string * R))
  (w : world) : world :=
  World (variables w) (f (summaries w)) (files w) (cache_writable w)
        (network w) (log w) (scope w) (truncated_normal w) (random_bits w)
        (assigned_before_abort w).

Definition set_files (f : gmap string file -> gmap string file)
  (w : world) : world :=
  World (variables w) (summaries w) (f (files w)) (cache_writable w)
        (network w) (log w) (scope w) (truncated_normal w) (random_bits w)
        (assigned_before_abort w).

Definition set_log (f : list string -> list string) (w : world) : world :=
  World (variables w) (summaries w) (files w) (cache_writable w)
        (network w) (f (log w)) (scope w) (truncated_normal w) (random_bits w)
        (assigned_before_abort w).

Definition set_scope (s : string) (w : world) : world :=
  World (variables w) (summaries w) (files w) (cache_writable w)
        (network w) (log w) s (truncated_normal w) (random_bits w)
        (assigned_before_abort w).

(** Computations that read and write the world and may raise. An exception
    keeps the effects that happened before it. *)
Definition M (A : Type) : Type := world -> result A * world.

Definition ret {A} (a : A) : M A := fun w => (Ok a, w).
Definition raise {A} (e : error) : M A := fun w => (Raise e, w).
Definition lift {A} (r : result A) : M A := fun w => (r, w).
Definition bind {A B} (m : M A) (k : A -> M B) : M B :=
  fun w => match m w with
           | (Ok a, w') => k a w'
           | (Raise e, w') => (Raise e, w')
           end.

Declare Scope monad_scope.
Delimit Scope monad_scope with monad.
Notation "x <- m ;; k" := (bind m (fun x => k))
  (at level 100, m at next level, k at level 200, right associativity,
   only parsing) : monad_scope.
Notation "m ;;; k" := (bind m (fun _ => k))
  (at level 100, k at level 200, right associativity, only parsing)
  : monad_scope.
Local Open Scope monad_scope.

(** [with tf.variable_scope(name): body]: names created inside are prefixed;
    the previous scope is restored on exit, also when the body raises. *)
Definition variable_scope {A} (name : string) (body : M A) : M A :=
  fun w =>
    let (r, w') := body (set_scope (scope w ++ name ++ "/") w) in
    (r, set_scope (scope w) w').

(** [tf.get_variable(name, shape, initializer)]: the persisted variable of
    that name in the current scope; when the store has none yet it is created
    from the initializer. A stored value of another shape is an error. *)
Definition get_variable (name : string) (s : list nat)
  (initializer : world -> nat -> R) : M variable :=
  fun w =>
    let key := (scope w ++ name)%string in
    match variables w !! key with
    | Some v =>
        if decide (shape v = s) then (Ok (Variable_ key s), w)
        else (Raise ValueError, w)
    | None =>
        (Ok (Variable_ key s),
         set_variables (insert key (sample (initializer w) s)) w)
    end.

(** Reading a variable in the graph. *)
Definition read (v : variable) : M tensor :=
  fun w => match variables w !! var_name v with
           | Some t => (Ok t, w)
           | None => (Raise NotFoundError, w)
           end.

(** [v.assign(t)]. *)
Definition assign (v : variable) (t : tensor) : M unit :=
  fun w => (Ok tt, set_variables (insert (var_name v) t) w).

(** Modelled from the spec: [scalar_summary] of [neuralgym.ops.summary_ops] is
    not among the sources.  The losses are "pure numeric reductions ... with no
    internal state", so a summary only records the named scalar in the
    framework's summary collection, which nothing here reads back. *)
Definition scalar_summary (name : string) (value : R) : M unit :=
  fun w => (Ok tt, set_summaries (fun l => l ++ [((scope w ++ name)%string, value)]) w).

(** Modelled from the spec: [callback_log] of [neuralgym.utils.logger] is not
    among the sources; it writes one line to the log. *)
Definition callback_log (line : string) : M unit :=
  fun w => (Ok tt, set_log (fun l => l ++ [line]) w).

End Framework.
Import Framework.
Local Open Scope monad_scope.

(* ===================================================================== *)
(** ** neuralgym/ops/gan_ops.py *)

Module GanOps.

Definition RESNET50_WEIGHTS_PATH_NO_TOP : string :=
  "https://github.com/rcmalli/keras-vggface/releases/download/v2.0/rcmalli_vggface_tf_notop_resnet50.h5".
Definition VGGFACE_DIR : string := "models/vggface".

(** [tf.nn.sigmoid_cross_entropy_with_logits]: for logits [x] and labels [z],
    [max(x, 0) - x * z + log(1 + exp(-abs(x)))]; both must have one shape. *)
Definition sigmoid_cross_entropy_with_logits (logits labels : tensor)
  : result tensor :=
  if decide (shape logits = shape labels) then
    Ok (Tensor (shape logits)
          (map (fun xz => Rmax (fst xz) 0 - fst xz * snd xz
                          + ln (1 + exp (- Rabs (fst xz))))
               (combine (data logits) (data labels))))
  else Raise ValueError.

Definition gan_log_loss (pos neg : tensor) (name : string) : M (R * R) :=
  variable_scope name (
    (* generative model G *)
    ce_g <- lift (sigmoid_cross_entropy_with_logits neg (ones_like neg)) ;;
    let g_loss := reduce_mean ce_g in
    (* discriminative model D *)
    ce_pos <- lift (sigmoid_cross_entropy_with_logits pos (ones_like pos)) ;;
    let d_loss_pos := reduce_mean ce_pos in
    ce_neg <- lift (sigmoid_cross_entropy_with_logits neg (zeros_like neg)) ;;
    let d_loss_neg := reduce_mean ce_neg in
    let pos_acc := reduce_mean (sigmoid pos) in
    let neg_acc := reduce_mean (sigmoid neg) in
    scalar_summary "d_scores/pos_mean" pos_acc ;;;
    scalar_summary "d_scores/neg_mean" neg_acc ;;;
    (* loss *)
    let d_loss := 0.5 * d_loss_pos + 0.5 * d_loss_neg in
    scalar_summary "losses/d_loss" d_loss ;;;
    scalar_summary "losses/g_loss" g_loss ;;;
    ret (g_loss, d_loss)).

Definition gan_ls_loss (pos neg : tensor) (value : R) (name : string)
  : M (R * R) :=
  variable_scope name (
    let l2_pos := reduce_mean (squared_difference pos value) in
    let l2_neg := reduce_mean (square neg) in
    scalar_summary "pos_l2_avg" l2_pos ;;;
    scalar_summary "neg_l2_avg" l2_neg ;;;
    let d_loss := 0.5 * l2_pos + 0.5 * l2_neg in
    let g_loss := reduce_mean (squared_difference neg value) in
    scalar_summary "d_loss" d_loss ;;;
    scalar_summary "g_loss" g_loss ;;;
    ret (g_loss, d_loss)).

(** [value] is accepted and not used: the margin is the literal 1. *)
Definition gan_hinge_loss (pos neg : tensor) (value : R) (name : string)
  : M (R * R) :=
  variable_scope name (
    let hinge_pos := reduce_mean (relu (tmap (fun p => 1 - p) pos)) in
    let hinge_neg := reduce_mean (relu (tmap (fun n => 1 + n) neg)) in
    scalar_summary "pos_hinge_avg" hinge_pos ;;;
    scalar_summary "neg_hinge_avg" hinge_neg ;;;
    let d_loss := 0.5 * hinge_pos + 0.5 * hinge_neg in
    let g_loss := - reduce_mean neg in
    scalar_summary "d_loss" d_loss ;;;
    scalar_summary "g_loss" g_loss ;;;
    ret (g_loss, d_loss)).

Definition gan_wgan_loss (pos neg : tensor) (name : string) : M (R * R) :=
  variable_scope name (
    diff <- lift (tsub neg pos) ;;
    let d_loss := reduce_mean diff in
    let g_loss := - reduce_mean neg in
    scalar_summary "d_loss" d_loss ;;;
    scalar_summary "g_loss" g_loss ;;;
    scalar_summary "pos_value_avg" (reduce_mean pos) ;;;
    scalar_summary "neg_value_avg" (reduce_mean neg) ;;;
    ret (g_loss, d_loss)).

(** Default arguments of the Python signatures. *)
Definition default_value : R := 1.
Definition default_norm : R := 1.

(** *** random_interpolates

    The dtype of the tensors, [tf.float32] by default, is the arithmetic. *)
Definition random_interpolates {A} `{Arithmetic A} (x y : gtensor A)
  (alpha : option (gtensor A)) : M (gtensor A) :=
  let shape := Tensor.shape x in
  match shape with
  | [] => raise ValueError                       (* shape[0] of a scalar *)
  | batch :: _ =>
      x <- lift (reshape x [Z.of_nat batch; -1]%Z) ;;
      y <- lift (reshape y [Z.of_nat batch; -1]%Z) ;;
      alpha <- match alpha with
               | None => fun w =>
                   (Ok (sample (fun k => ar_uniform (random_bits w k))
                               [batch; 1%nat]), w)
               | Some a => ret a
               end ;;
      d <- lift (tsub y x) ;;
      p <- lift (tmul alpha d) ;;
      interpolates <- lift (tadd x p) ;;
      lift (reshape_to interpolates shape)
  end.

(** *** gradients_penalty

    [tf.gradients(y, x)[0]] is the framework's automatic differentiation of the
    graph that computes [y] from [x]; it is an argument here.  It yields no
    tensor when [y] does not depend on [x], and squaring that fails. *)
Section GradientsPenalty.

Variable tf_gradients : (tensor -> tensor) -> tensor -> option tensor.

Definition slopes (gradients : tensor) (mask : option tensor) : result tensor :=
  let mask := match mask with
              | None => ones_like gradients
              | Some m => m
              end in
  rbind (tmul (square gradients) mask) (fun masked =>
  rbind (reduce_sum_123 masked) (fun s =>
  Ok (tsqrt s))).

Definition gradients_penalty (x : tensor) (y : tensor -> tensor)
  (mask : option tensor) (norm : R) : M R :=
  match tf_gradients y x with
  | None => raise ValueError
  | Some gradients =>
      slopes <- lift (slopes gradients mask) ;;
      ret (reduce_mean (square (tmap (fun s => s - norm) slopes)))
  end.

End GradientsPenalty.

(** *** kernel_spectral_norm *)
Definition l2_norm (input_x : tensor) (epsilon : R) : tensor :=
  tmap (fun v => v / (sqrt (reduce_sum (tmap (fun v => v ^ 2) input_x)) + epsilon))
       input_x.

Definition default_epsilon : R := 1e-12.

Definition power_iteration (w_mat u : tensor) (ite : Z)
  : result (tensor * tensor * Z) :=
  rbind (matmul u (transpose w_mat)) (fun v_ =>
  let v_hat := l2_norm v_ default_epsilon in
  rbind (matmul v_hat w_mat) (fun u_ =>
  let u_hat := l2_norm u_ default_epsilon in
  Ok (u_hat, v_hat, (ite + 1)%Z))).

(** One evaluation stands for one forward pass of the graph the function
    builds: [u] is read from the variable store, which persists from pass to
    pass, the step is computed, and the assignment of [u_hat] is forced by the
    control dependency of the returned tensor.  [iteration] is passed to
    [power_iteration], which counts it up and is called once. *)
Definition kernel_spectral_norm (kernel : tensor) (iteration : Z)
  (name : string) : M tensor :=
  variable_scope name (
    let w_shape := shape kernel in
    match last w_shape with
    | None => raise ValueError                   (* w_shape[-1] of a scalar *)
    | Some n =>
        w_mat <- lift (reshape kernel [-1; Z.of_nat n]%Z) ;;
        u <- get_variable "u" [1%nat; n] truncated_normal ;;
        u_val <- read u ;;
        step <- lift (power_iteration w_mat u_val iteration) ;;
        let '(u_hat, v_hat, _) := step in
        vw <- lift (matmul v_hat w_mat) ;;
        sigma <- lift (matmul vw (transpose u_hat)) ;;
        w_mat <- lift (tdiv w_mat sigma) ;;
        assign u u_hat ;;;
        lift (reshape_to w_mat w_shape)
    end).

(** The name under which [kernel_spectral_norm] keeps [u], and the value a
    forward pass finds there: the persisted one, or the initializer's draw
    when the variable is created by this call. *)
Definition u_key (w : world) (name : string) : string :=
  ((scope w ++ name ++ "/") ++ "u")%string.

Definition persisted_u (w : world) (name : string) (n : nat) : tensor :=
  default (sample (truncated_normal w) [1%nat; n])
          (variables w !! u_key w name).

Definition u_ready (w : world) (name : string) (n : nat) : Prop :=
  match variables w !! u_key w name with
  | Some t => shape t = [1%nat; n]
  | None => True
  end.

(** *** The power-iteration step on vectors

    The reshaped kernel is the [m] by [n] matrix [W] whose entry [(i, j)] is
    entry [i * n + j] of the kernel's data; [u] has [n] entries and [v] has
    [m]. *)
Module PowerIteration.

(** [u W^T] *)
Definition vec_mat_t (u W : list R) (m n : nat) : list R :=
  map (fun i => Rsum (map (fun j => nth j u 0 * nth (i * n + j) W 0) (seq 0 n)))
      (seq 0 m).

(** [v W] *)
Definition vec_mat (v W : list R) (m n : nat) : list R :=
  map (fun j => Rsum (map (fun i => nth i v 0 * nth (i * n + j) W 0) (seq 0 m)))
      (seq 0 n).

Definition norm2 (l : list R) : R := sqrt (Rsum (map (fun x => x ^ 2) l)).

Definition normalize (l : list R) : list R :=
  map (fun x => x / (norm2 l + default_epsilon)) l.

Definition dot (a b : list R) (n : nat) : R :=
  Rsum (map (fun j => nth j a 0 * nth j b 0) (seq 0 n)).

(** What the code computes: the estimates [u_hat], [v_hat] and [sigma]. *)
Definition step (W u : list R) (m n : nat) : list R * list R * R :=
  let v_hat := normalize (vec_mat_t u W m n) in
  let u_ := vec_mat v_hat W m n in
  let u_hat := normalize u_ in
  (u_hat, v_hat, dot u_ u_hat n).

(** The step as the specification words it: "normalize [u], propagate through
    the weight matrix and its transpose to update the singular-vector
    estimate, compute the Rayleigh-quotient estimate". *)
Definition step_normalizing_u (W u : list R) (m n : nat)
  : list R * list R * R :=
  step W (normalize u) m n.

(** "... and divide the weight matrix by it before reshaping back to kernel
    shape." *)
Definition normalized_kernel (kernel : tensor) (sigma : R) : tensor :=
  Tensor (shape kernel) (map (fun x => x / sigma) (data kernel)).

(** The estimate after [k] forward passes on a fixed kernel, and the value of
    [sigma] computed by the pass that follows them. *)
Fixpoint iterate (W u : list R) (m n k : nat) : list R :=
  match k with
  | O => u
  | S k' => fst (fst (step W (iterate W u m n k') m n))
  end.

Definition sigma_at (W u : list R) (m n k : nat) : R :=
  snd (step W (iterate W u m n k) m n).

(** *** Vectors as lists *)

Definition vscale (c : R) (x : list R) : list R := map (Rmult c) x.

Definition vadd (x y : list R) (n : nat) : list R :=
  map (fun j => nth j x 0 + nth j y 0) (seq 0 n).

Fixpoint vsum (n : nat) (xs : list (list R)) : list R :=
  match xs with
  | [] => repeat 0 n
  | x :: xs' => vadd x (vsum n xs') n
  end.

(** [x W^T W] *)
Definition gram (W x : list R) (m n : nat) : list R :=
  vec_mat (vec_mat_t x W m n) W m n.

(** The images of the start vector under alternating applications of the
    matrix and its transpose: [image (2k)] is [u (W^T W)^k] and
    [image (2k+1)] is [u (W^T W)^k W^T]; [nu_of] is their norm. *)
Fixpoint image (W u : list R) (m n j : nat) : list R :=
  match j with
  | O => u
  | S j' => if Nat.even j' then vec_mat_t (image W u m n j') W m n
            else vec_mat (image W u m n j') W m n
  end.

Definition nu_of (W u : list R) (m n : nat) (j : nat) : R :=
  norm2 (image W u m n j).

(** *** The largest singular value and the singular directions met by [u] *)

(** [sv] is the largest singular value of the [m] by [n] matrix [W]: the
    largest stretch of a vector, attained on a unit vector. *)
Definition largest_singular_value (W : list R) (m n : nat) (sv : R) : Prop :=
  (forall x, length x = n -> norm2 (vec_mat_t x W m n) <= sv * norm2 x)
  /\ exists x, length x = n /\ norm2 x = 1 /\ norm2 (vec_mat_t x W m n) = sv.

Definition weighted (f : R -> R) (comps : list (R * list R))
  : list (list R) :=
  map (fun c => vscale (f (fst c)) (snd c)) comps.

(** [u] is the sum of mutually orthogonal vectors [q], each of which the
    matrix [W^T W] stretches by the square of its singular value: the
    components of [u] along right-singular directions of [W], each paired
    with its singular value. *)
Record singular_expansion (W u : list R) (m n : nat)
  (comps : list (R * list R)) : Prop := {
  exp_sum : u = vsum n (map snd comps);
  exp_eigen : Forall (fun c => gram W (snd c) m n
                               = vscale (fst c * fst c) (snd c)) comps;
  exp_orth : ForallOrdPairs (fun c1 c2 => dot (snd c1) (snd c2) n = 0) comps;
  exp_nonneg : Forall (fun c => 0 <= fst c) comps
}.

Definition moment (n : nat) (comps : list (R * list R)) (j : nat) : R :=
  Rsum (map (fun c => (fst c * fst c) ^ j * dot (snd c) (snd c) n) comps).

(** *** The scalar shadow of the iteration

    With [nu j] the norm of the [j]-th image of the start vector, the [k]-th
    estimate is [cseq k] times the [2k]-th image; [aseq], [bseq] and [tseq]
    are the norms of [u W^T], of [v_hat W] and of the estimate, and [sigseq]
    is [sigma]. *)
Fixpoint cseq (eps c0 : R) (nu : nat -> R) (k : nat) : R :=
  match k with
  | O => c0
  | S k' => let a := cseq eps c0 nu k' * nu (2 * k' + 1)%nat in
            let b := cseq eps c0 nu k' * nu (2 * k' + 2)%nat / (a + eps) in
            cseq eps c0 nu k' / ((a + eps) * (b + eps))
  end.

Definition aseq (eps c0 : R) (nu : nat -> R) (k : nat) : R :=
  cseq eps c0 nu k * nu (2 * k + 1)%nat.
Definition bseq (eps c0 : R) (nu : nat -> R) (k : nat) : R :=
  cseq eps c0 nu k * nu (2 * k + 2)%nat / (aseq eps c0 nu k + eps).
Definition tseq (eps c0 : R) (nu : nat -> R) (k : nat) : R :=
  cseq eps c0 nu k * nu (2 * k)%nat.
Definition sigseq (eps c0 : R) (nu : nat -> R) (k : nat) : R :=
  bseq eps c0 nu k * bseq eps c0 nu k / (bseq eps c0 nu k + eps).

End PowerIteration.

(** *** gan_identity_loss *)

(** Modelled from the spec: [keras.utils.data_utils.get_file] is not among the
    sources.  It "downloads a fixed weights file by URL into a local cache
    directory on first use; fails on network error or cache-write failure":
    a file already at [cache_subdir/fname] is returned as it is; otherwise the
    URL is fetched and its payload stored there. *)
Definition get_file (fname origin cache_subdir : string) : M string :=
  fun w =>
    let fpath := (cache_subdir ++ "/" ++ fname)%string in
    match files w !! fpath with
    | Some _ => (Ok fpath, w)
    | None =>
        match network w !! origin with
        | None => (Raise DownloadError, w)
        | Some payload =>
            if cache_writable w
            then (Ok fpath, set_files (insert fpath (WeightsFile payload)) w)
            else (Raise OSError, w)
        end
    end.

Section IdentityLoss.

(** The pretrained network and the image and loss primitives of the framework
    are arguments: the architecture built by [VGGFace(model='resnet50',
    include_top=False, input_shape=(224, 224, 3))], [model.load_weights] on
    the bytes of a weights file, the call of the model on a batch,
    [tf.image.resize_images], and the cosine distance of the two embeddings
    after [tf.nn.l2_normalize(_, 0)] with [axis=0] and mean reduction. *)
Variable model : Type.
Variable VGGFace_resnet50 : model.
Variable load_weights : model -> list Byte.byte -> result model.
Variable call : model -> tensor -> result tensor.
Variable resize_images : tensor -> list nat -> result tensor.
Variable normalized_cosine_distance : tensor -> tensor -> result R.

(** [x[..., ::-1]]: the last axis reversed. *)
Definition reverse_last_axis (t : tensor) : tensor :=
  match last (shape t) with
  | None => t
  | Some c => Tensor (shape t)
                (concat (map (@rev R) (chunks (length (data t) / c) c (data t))))
  end.

(** [t[i0, i1, ...]] with one index per axis. *)
Definition tindex (t : tensor) (idx : list nat) : result R :=
  if decide (length idx = length (shape t)) then
    if forallb (fun di => (snd di <? fst di)%nat) (combine (shape t) idx)
    then Ok (nth (ravel (shape t) idx) (data t) 0)
    else Raise ValueError
  else Raise ValueError.

Definition preprocess_input (x : tensor) : result tensor :=
  (* Normalize to 0...255 *)
  let x := tmap (fun v => Rmax (Rmin ((v + 1) * 127.5) 255) 0) x in
  rbind (resize_images x [224%nat; 224%nat]) (fun x_resize =>
  let vggface_mean := Tensor [3%nat] [-91.4953; -103.8827; -131.0912] in
  let x_resize := reverse_last_axis x_resize in     (* RGB to BGR *)
  tadd x_resize vggface_mean).

Definition open_weights (path : string) : M (list Byte.byte) :=
  fun w => match files w !! path with
           | Some (WeightsFile payload) => (Ok payload, w)
           | Some (CheckpointFile _) => (Raise ValueError, w)
           | None => (Raise NotFoundError, w)
           end.

Definition gan_identity_loss (complete ref : tensor) (name : string) : M R :=
  variable_scope name (
    let model := VGGFace_resnet50 in
    weights_path <- get_file "rcmalli_vggface_tf_notop_resnet50.h5"
                             RESNET50_WEIGHTS_PATH_NO_TOP VGGFACE_DIR ;;
    payload <- open_weights weights_path ;;
    model <- lift (load_weights model payload) ;;
    complete_preprocessed <- lift (preprocess_input complete) ;;
    ref_preprocessed <- lift (preprocess_input ref) ;;
    embedding_complete <- lift (call model complete_preprocessed) ;;
    embedding_ref <- lift (call model ref_preprocessed) ;;
    identity_loss <- lift (normalized_cosine_distance embedding_complete
                                                      embedding_ref) ;;
    diff <- lift (tsub embedding_complete embedding_ref) ;;
    scalar_summary "embedding_l1" (reduce_mean (tabs diff)) ;;;
    scalar_summary "embedding_l2" (reduce_mean (square diff)) ;;;
    scalar_summary "image_l1" (reduce_mean (tabs diff)) ;;;
    c0 <- lift (tindex complete [0; 112; 112; 0]%nat) ;;
    scalar_summary "complete_pixel0" c0 ;;;
    r0 <- lift (tindex ref [0; 112; 112; 0]%nat) ;;
    scalar_summary "ref_pixel0" r0 ;;;
    pc0 <- lift (tindex complete_preprocessed [0; 112; 112; 0]%nat) ;;
    scalar_summary "pre_complete_pixel0" pc0 ;;;
    pr0 <- lift (tindex ref_preprocessed [0; 112; 112; 0]%nat) ;;
    scalar_summary "pre_ref_pixel0" pr0 ;;;
    scalar_summary "identity_loss_scalar" identity_loss ;;;
    ret identity_loss).

End IdentityLoss.

End GanOps.
Import GanOps.

(* ===================================================================== *)
(** ** neuralgym/callbacks *)

Module Callbacks.

(** Modelled from the spec: [CallbackLoc], [OnceCallback] and the trainer that
    fires the callbacks belong to [neuralgym.callbacks] and [neuralgym.train]
    and are not among the sources.  A callback is registered for one location
    of the training run; a [OnceCallback] is "one-shot": the trainer runs it
    when the run passes its location, which for [train_start] and [train_end]
    happens once, before the first and after the last step; periodic callbacks
    run at the start or end of every [pstep]-th step. *)
Inductive CallbackLoc : Type :=
| train_start | train_end | step_start | step_end | exception.

#[export] Instance CallbackLoc_eq_dec : EqDecision CallbackLoc.
Proof. solve_decision. Defined.

Inductive Callback : Type :=
| OnceCallback (cb_loc : CallbackLoc) (run : M unit)
| PeriodicCallback (cb_loc : CallbackLoc) (pstep : nat) (run : nat -> M unit).

Fixpoint run_once_callbacks (loc : CallbackLoc) (cbs : list Callback)
  : M unit :=
  match cbs with
  | [] => ret tt
  | OnceCallback l run :: cbs' =>
      (if decide (l = loc) then run else ret tt) ;;;
      run_once_callbacks loc cbs'
  | PeriodicCallback _ _ _ :: cbs' => run_once_callbacks loc cbs'
  end.

Fixpoint run_periodic_callbacks (loc : CallbackLoc) (step : nat)
  (cbs : list Callback) : M unit :=
  match cbs with
  | [] => ret tt
  | PeriodicCallback l pstep run :: cbs' =>
      (if decide (l = loc) then
         if (step mod pstep =? 0)%nat then run step else ret tt
       else ret tt) ;;;
      run_periodic_callbacks loc step cbs'
  | OnceCallback _ _ :: cbs' => run_periodic_callbacks loc step cbs'
  end.

Fixpoint train_loop (remaining step : nat) (train_op : M unit)
  (cbs : list Callback) : M unit :=
  match remaining with
  | O => ret tt
  | S remaining' =>
      let step := S step in
      run_periodic_callbacks step_start step cbs ;;;
      train_op ;;;
      run_periodic_callbacks step_end step cbs ;;;
      train_loop remaining' step train_op cbs
  end.

(** What a training run does once the [train_start] callbacks have run. *)
Definition train_after_start (cbs : list Callback) (max_iters : nat)
  (train_op : M unit) : M unit :=
  train_loop max_iters 0 train_op cbs ;;;
  run_once_callbacks train_end cbs.

Definition train (cbs : list Callback) (max_iters : nat) (train_op : M unit)
  : M unit :=
  run_once_callbacks train_start cbs ;;;
  train_after_start cbs max_iters train_op.

(** Modelled from the spec: [tf.train.Saver(var_list).restore(sess, path)] is
    the framework's.  It "reads a framework-native checkpoint file given a
    path and a list of variable handles; fails if the path is missing or the
    checkpoint's variable set doesn't match": every handle must find a saved
    tensor of its name and shape.  The restore is one step of the session
    that reads and assigns every variable; the spec does not say which
    assignments of a failing step have run when it is aborted, so that is
    left to the framework ([assigned_before_abort]). *)
Definition saved_for (saved : gmap string tensor) (v : variable)
  : option tensor :=
  match saved !! var_name v with
  | Some t => if decide (shape t = var_shape v) then Some t else None
  | None => None
  end.

Definition restore_all (saved : gmap string tensor) (var_list : list variable)
  (vars : gmap string tensor) : gmap string tensor :=
  fold_left (fun m v => match saved_for saved v with
                        | Some t => <[var_name v := t]> m
                        | None => m
                        end) var_list vars.

Definition Saver_restore (var_list : list variable) (save_path : string)
  : M unit :=
  fun w =>
    match files w !! save_path with
    | Some (CheckpointFile saved) =>
        if forallb (fun v => bool_decide (is_Some (saved_for saved v))) var_list
        then (Ok tt, set_variables (restore_all saved var_list) w)
        else (Raise NotFoundError,
              set_variables
                (restore_all saved
                   (List.filter (assigned_before_abort w) var_list)) w)
    | _ => (Raise NotFoundError, w)
    end.

(** *** identity_model_restorer.py *)
Record IdentityModelRestorer : Type := {
  cb_loc : CallbackLoc;
  _model_weights : list variable;
  _tf_checkpoint_path : string
}.

(** [__init__]: [super().__init__(CallbackLoc.train_start)]. *)
Definition init (model_weights : list variable) (tf_checkpoint_path : string)
  : IdentityModelRestorer :=
  {| cb_loc := train_start;
     _model_weights := model_weights;
     _tf_checkpoint_path := tf_checkpoint_path |}.

Definition run (self : IdentityModelRestorer) : M unit :=
  Saver_restore (_model_weights self) (_tf_checkpoint_path self) ;;;
  callback_log ("Trigger identity model weights loader: weights restored from "
                ++ _tf_checkpoint_path self ++ ".").

(** The class derives from [OnceCallback]. *)
Definition as_callback (self : IdentityModelRestorer) : Callback :=
  OnceCallback (cb_loc self) (run self).

End Callbacks.
Import Callbacks.

(* ===================================================================== *)
(** ** Notions used to state the properties *)

(** A world with nothing in it. *)
Definition empty_world : world :=
  World ∅ [] ∅ true ∅ [] "" (fun _ => 0) (fun _ => 0%N) (fun _ => false).

(** Everything persistent but the summary collection. *)
Definition same_persistent (w w' : world) : Prop :=
  variables w' = variables w /\ files w' = files w /\ log w' = log w
  /\ scope w' = scope w.

(** Entry [k] of the interpolation of [x] and [y] whose rows have [row_len]
    entries: [x + alpha * (y - x)] with the coefficient of the row. *)
Definition interpolate_entry {A} `{Arithmetic A} (x y alpha : gtensor A)
  (row_len k : nat) : A :=
  ar_add (nth k (data x) ar_zero)
         (ar_mul (nth (k / row_len) (data alpha) ar_zero)
                 (ar_sub (nth k (data y) ar_zero) (nth k (data x) ar_zero))).

(** A binary32 number that is neither an infinity nor NaN. *)
Definition finite32 (v : float32) : bool :=
  match v with
  | S754_zero _ | S754_finite _ _ _ => true
  | _ => false
  end.

(** The binary32 numbers [3], [1] and the one nearest to [0.1]. *)
Definition f32_three : float32 := S754_finite false 12582912 (-22).
Definition f32_one : float32 := S754_finite false 8388608 (-23).
Definition f32_tenth : float32 := S754_finite false 13421773 (-27).

(** The [l2_norm] of the code on a one-entry vector with a non-negative
    entry. *)
Definition nrm (x : R) : R := x / (x + default_epsilon).

(** A one-by-one kernel and a store that holds [u] for it. *)
Definition sn_kernel : tensor := Tensor [1; 1; 1; 1]%nat [1].
Definition sn_world (u : list R) : world :=
  World (<["kernel_sn/u"%string := Tensor [1; 1]%nat u]> ∅)
        [] ∅ true ∅ [] "" (fun _ => 0) (fun _ => 0%N) (fun _ => false).

(** The world after [k] forward passes on a fixed kernel. *)
Fixpoint forward_passes (kernel : tensor) (iteration : Z) (name : string)
  (k : nat) (w : world) : world :=
  match k with
  | O => w
  | S k' => snd (kernel_spectral_norm kernel iteration name
                   (forward_passes kernel iteration name k' w))
  end.

(** A kernel whose reshaped matrix is [diag(2, 1)] and a store holding [u]. *)
Definition diag_kernel : tensor := Tensor [1; 1; 2; 2]%nat [2; 0; 0; 1].
Definition diag_world (u : list R) : world :=
  World (<["kernel_sn/u"%string := Tensor [1; 2]%nat u]> ∅)
        [] ∅ true ∅ [] "" (fun _ => 0) (fun _ => 0%N) (fun _ => false).

(** The checkpoint stored at a path, if the path holds one. *)
Definition checkpoint_at (w : world) (path : string)
  : option (gmap string tensor) :=
  match files w !! path with
  | Some (CheckpointFile saved) => Some saved
  | _ => None
  end.

Definition restored_line (path : string) : string :=
  ("Trigger identity model weights loader: weights restored from "
   ++ path ++ ".")%string.

(** A variable store and a checkpoint for it. *)
Definition ckpt_world : world :=
  World (<["w"%string := Tensor [1%nat] [0]]> ∅) []
        (<["model.ckpt"%string :=
             CheckpointFile (<["w"%string := Tensor [1%nat] [2]]> ∅)]> ∅)
        true ∅ [] "" (fun _ => 0) (fun _ => 0%N) (fun _ => false).

(** A store with two variables and a checkpoint that saves the first only,
    in a framework that assigns what it has read before the step fails. *)
Definition partial_ckpt_world : world :=
  World (<["a"%string := Tensor [1%nat] [0]]>
           (<["b"%string := Tensor [1%nat] [0]]> ∅)) []
        (<["model.ckpt"%string :=
             CheckpointFile (<["a"%string := Tensor [1%nat] [2]]> ∅)]> ∅)
        true ∅ [] "" (fun _ => 0) (fun _ => 0%N) (fun _ => true).

(** Where [gan_identity_loss] caches the weights. *)
Definition WEIGHTS_FNAME : string := "rcmalli_vggface_tf_notop_resnet50.h5".
Definition weights_cache_path : string :=
  (VGGFACE_DIR ++ "/" ++ WEIGHTS_FNAME)%string.

(** The same world with another network and cache-directory permission. *)
Definition set_network (net : gmap string (list Byte.byte)) (writable : bool)
  (w : world) : world :=
  World (variables w) (summaries w) (files w) writable net (log w) (scope w)
        (truncated_normal w) (random_bits w)
        (assigned_before_abort w).

(** A computation that, from [w], leaves the disk alone and does not look at
    the network. *)
Definition offline_at {A} (m : M A) (w : world) : Prop :=
  files (snd (m w)) = files w
  /\ forall net wr,
       m (set_network net wr w) = (fst (m w), set_network net wr (snd (m w))).

Definition offline {A} (m : M A) : Prop := forall w, offline_at m w.

(** A world whose cache is empty and whose network serves the weights. *)
Definition online_world : world :=
  World ∅ [] ∅ true
        (<[RESNET50_WEIGHTS_PATH_NO_TOP := [Byte.x01; Byte.x02]]> ∅)
        [] "" (fun _ => 0) (fun _ => 0%N) (fun _ => false).

(* ===================================================================== *)
(** * Properties *)

Import PowerIteration.

(** ** Tensor operations on small inputs *)

Example reshape_infer :
  reshape (Tensor [2;1;3]%nat [1;2;3;4;5;6]) [-1; 3]%Z
  = Ok (Tensor [2;3]%nat [1;2;3;4;5;6]).
Proof. reflexivity. Qed.

Example transpose_2x3 :
  transpose (Tensor [2;3]%nat [1;2;3;4;5;6])
  = Tensor [3;2]%nat [1;4;2;5;3;6].
Proof. reflexivity. Qed.

Example matmul_1x2_2x2 :
  matmul (Tensor [1;2]%nat [1;2]) (Tensor [2;2]%nat [3;4;5;6])
  = Ok (Tensor [1;2]%nat [1*3 + (2*5 + 0); 1*4 + (2*6 + 0)]).
Proof. reflexivity. Qed.

Example broadcast_col :
  tmul (Tensor [2;1]%nat [10;20]) (Tensor [2;2]%nat [1;2;3;4])
  = Ok (Tensor [2;2]%nat [10*1; 10*2; 20*3; 20*4]).
Proof. reflexivity. Qed.

(** ** Facts about tensors *)

Lemma Rsum_app (l1 l2 : list R) : Rsum (l1 ++ l2) = Rsum l1 + Rsum l2.
Proof. induction l1 as [|a l1 IH]; simpl; [lra | rewrite IH; lra]. Qed.

Lemma Rsum_nonneg (l : list R) : Forall (fun x => 0 <= x) l -> 0 <= Rsum l.
Proof. induction 1; simpl; lra. Qed.

Lemma Rsum_zero (l : list R) : Forall (fun x => x = 0) l -> Rsum l = 0.
Proof. induction 1; simpl; lra. Qed.

Lemma Rsum_map_ext (A : Type) (f g : A -> R) (l : list A) :
  (forall a, In a l -> f a = g a) -> Rsum (map f l) = Rsum (map g l).
Proof.
  intros H. f_equal. apply map_ext_in. exact H.
Qed.

Lemma map_nth_seq {A} {d : A} (l : list A) :
  map (fun k => nth k l d) (seq 0 (length l)) = l.
Proof.
  induction l as [|a l IH]; simpl; [reflexivity|].
  f_equal. rewrite <- seq_shift, map_map. exact IH.
Qed.

Lemma numel_app (s1 s2 : list nat) :
  numel (s1 ++ s2) = (numel s1 * numel s2)%nat.
Proof. induction s1 as [|d s1 IH]; simpl; [lia | rewrite IH; lia]. Qed.

Lemma numel_rev (s : list nat) : numel (rev s) = numel s.
Proof.
  induction s as [|d s IH]; simpl; [reflexivity|].
  rewrite numel_app, IH. simpl. lia.
Qed.

Lemma ravel_unravel (s : list nat) (k : nat) :
  (k < numel s)%nat -> ravel s (unravel s k) = k.
Proof.
  revert k. induction s as [|d s IH]; intros k Hk; simpl in *.
  - lia.
  - assert (Hn : (numel s <> 0)%nat) by (intros E; rewrite E in Hk; lia).
    rewrite IH by (apply Nat.mod_upper_bound; exact Hn).
    pose proof (Nat.div_mod_eq k (numel s)). lia.
Qed.

Lemma bindex_unravel (s : list nat) (k : nat) :
  (k < numel s)%nat -> bindex s (unravel s k) = unravel s k.
Proof.
  revert k. induction s as [|d s IH]; intros k Hk; simpl in *; [reflexivity|].
  assert (Hn : (numel s <> 0)%nat) by (intros E; rewrite E in Hk; lia).
  rewrite IH by (apply Nat.mod_upper_bound; exact Hn).
  destruct (Nat.eqb_spec d 1) as [->|]; [|reflexivity].
  rewrite Nat.div_small by lia. reflexivity.
Qed.

Lemma bshape_same (s : list nat) : bshape s s = Ok s.
Proof.
  induction s as [|d s IH]; simpl; [reflexivity|].
  rewrite IH. simpl. rewrite Nat.eqb_refl. reflexivity.
Qed.

Lemma pad_shape_self (s : list nat) : pad_shape (length s) s = s.
Proof. unfold pad_shape. rewrite Nat.sub_diag. reflexivity. Qed.

Lemma broadcast_shape_same (s : list nat) : broadcast_shape s s = Ok s.
Proof.
  unfold broadcast_shape. rewrite Nat.max_id, pad_shape_self. apply bshape_same.
Qed.

(** Two tensors of one shape combine entry by entry. *)
Lemma broadcast2_same_shape {A} (d : A) (f : A -> A -> A) (a b : gtensor A) :
  shape a = shape b ->
  broadcast2 d f a b
  = Ok (Tensor (shape a)
          (map (fun k => f (nth k (data a) d) (nth k (data b) d))
               (seq 0 (numel (shape a))))).
Proof.
  intros Hs. unfold broadcast2. rewrite <- Hs, broadcast_shape_same. simpl.
  f_equal. f_equal. apply map_ext_in. intros k Hk. apply in_seq in Hk.
  unfold bget. rewrite <- Hs, pad_shape_self.
  rewrite bindex_unravel, ravel_unravel by lia. reflexivity.
Qed.

Lemma nth_map_seq {A} {d : A} (F : nat -> A) (n i : nat) :
  (i < n)%nat -> nth i (map F (seq 0 n)) d = F i.
Proof.
  intros Hi. rewrite (nth_indep _ d (F 0%nat)) by (now rewrite length_map, length_seq).
  rewrite (map_nth F (seq 0 n) 0%nat i), seq_nth by exact Hi. reflexivity.
Qed.

Lemma broadcast_shape_column (b n : nat) :
  broadcast_shape [b; 1%nat] [b; n] = Ok [b; n].
Proof.
  unfold broadcast_shape, pad_shape.
  cbn [length Nat.max Nat.sub repeat app bshape rbind].
  destruct (Nat.eqb_spec 1 n) as [<-|]; cbn [rbind Nat.eqb];
    rewrite Nat.eqb_refl; reflexivity.
Qed.

Lemma broadcast_shape_one_by_one (m n : nat) :
  broadcast_shape [m; n] [1%nat; 1%nat] = Ok [m; n].
Proof.
  unfold broadcast_shape, pad_shape.
  cbn [length Nat.max Nat.sub repeat app bshape rbind].
  destruct (Nat.eqb_spec n 1) as [->|]; cbn [rbind];
    destruct (Nat.eqb_spec m 1) as [->|]; reflexivity.
Qed.

(** A column [b, 1] against a matrix [b, n]: the column entry of the row. *)
Lemma broadcast2_column {A} (z : A) (f : A -> A -> A) (a d : gtensor A)
  (b n : nat) :
  shape a = [b; 1%nat] -> shape d = [b; n] ->
  broadcast2 z f a d
  = Ok (Tensor [b; n]
          (map (fun k => f (nth (k / n) (data a) z) (nth k (data d) z))
               (seq 0 (b * n)))).
Proof.
  intros Ha Hd. unfold broadcast2. rewrite Ha, Hd, broadcast_shape_column.
  cbn [rbind length numel fold_right]. rewrite Nat.mul_1_r.
  f_equal. f_equal.
  apply map_ext_in. intros k Hk. apply in_seq in Hk.
  assert (Hn : (n <> 0)%nat) by (intros ->; lia).
  assert (Hi : (k / n < b)%nat) by (apply Nat.Div0.div_lt_upper_bound; lia).
  assert (Hj : (k mod n < n)%nat) by (apply Nat.mod_upper_bound; lia).
  pose proof (Nat.div_mod_eq k n) as Hdm.
  unfold bget. rewrite Ha, Hd. unfold pad_shape.
  cbn [length Nat.sub repeat app unravel bindex ravel numel fold_right].
  rewrite !Nat.mul_1_r, !Nat.div_1_r, Nat.eqb_refl.
  f_equal; f_equal.
  - destruct (Nat.eqb_spec b 1) as [->|]; lia.
  - destruct (Nat.eqb_spec b 1) as [->|]; destruct (Nat.eqb_spec n 1) as [->|]; lia.
Qed.

(** A matrix against a [1, 1] tensor: its single entry everywhere. *)
Lemma broadcast2_one_by_one {A} (z : A) (f : A -> A -> A) (a c : gtensor A)
  (m n : nat) :
  shape a = [m; n] -> shape c = [1%nat; 1%nat] ->
  broadcast2 z f a c
  = Ok (Tensor [m; n]
          (map (fun k => f (nth k (data a) z) (nth 0 (data c) z))
               (seq 0 (m * n)))).
Proof.
  intros Ha Hc. unfold broadcast2. rewrite Ha, Hc, broadcast_shape_one_by_one.
  cbn [rbind length numel fold_right]. rewrite Nat.mul_1_r.
  f_equal. f_equal.
  apply map_ext_in. intros k Hk. apply in_seq in Hk.
  assert (Hn : (n <> 0)%nat) by (intros ->; lia).
  assert (Hi : (k / n < m)%nat) by (apply Nat.Div0.div_lt_upper_bound; lia).
  assert (Hj : (k mod n < n)%nat) by (apply Nat.mod_upper_bound; lia).
  pose proof (Nat.div_mod_eq k n) as Hdm.
  unfold bget. rewrite Ha, Hc. unfold pad_shape.
  cbn [length Nat.sub repeat app unravel bindex ravel numel fold_right Nat.eqb].
  rewrite !Nat.mul_1_r, !Nat.div_1_r.
  f_equal; f_equal.
  destruct (Nat.eqb_spec m 1) as [->|]; destruct (Nat.eqb_spec n 1) as [->|]; lia.
Qed.

(** Entries of the transpose of an [m, n] matrix. *)
Lemma transpose_entry (t : tensor) (m n j i : nat) :
  shape t = [m; n] -> (j < n)%nat -> (i < m)%nat ->
  nth (j * m + i) (data (transpose t)) 0 = nth (i * n + j) (data t) 0.
Proof.
  intros Hs Hj Hi. unfold transpose. rewrite Hs.
  cbn [data rev app numel fold_right].
  rewrite nth_map_seq by nia.
  cbn [unravel rev app ravel numel fold_right].
  rewrite !Nat.mul_1_r, !Nat.div_1_r.
  rewrite Nat.div_add_l by lia. rewrite (Nat.div_small i m) by lia.
  replace ((j * m + i) mod m)%nat with i.
  - f_equal. lia.
  - rewrite Nat.add_comm, Nat.Div0.mod_add. symmetry. apply Nat.mod_small. lia.
Qed.

Lemma transpose_shape (t : tensor) : shape (transpose t) = rev (shape t).
Proof. reflexivity. Qed.

(** A row vector times a matrix. *)
Lemma matmul_row (v w : tensor) (m n : nat) :
  shape v = [1%nat; m] -> shape w = [m; n] ->
  matmul v w
  = Ok (Tensor [1%nat; n]
          (map (fun j => Rsum (map (fun i => nth i (data v) 0
                                            * nth (i * n + j) (data w) 0)
                                   (seq 0 m)))
               (seq 0 n))).
Proof.
  intros Hv Hw. unfold matmul. rewrite Hv, Hw, Nat.eqb_refl. simpl.
  rewrite app_nil_r. reflexivity.
Qed.

(** A row vector times the transpose of a matrix. *)
Lemma matmul_row_transpose (u w : tensor) (m n : nat) :
  shape u = [1%nat; n] -> shape w = [m; n] ->
  matmul u (transpose w)
  = Ok (Tensor [1%nat; m]
          (map (fun i => Rsum (map (fun j => nth j (data u) 0
                                            * nth (i * n + j) (data w) 0)
                                   (seq 0 n)))
               (seq 0 m))).
Proof.
  intros Hu Hw.
  rewrite (matmul_row u (transpose w) n m Hu)
    by (rewrite transpose_shape, Hw; reflexivity).
  f_equal. f_equal. apply map_ext_in. intros i Hi. apply in_seq in Hi.
  apply Rsum_map_ext. intros j Hj. apply in_seq in Hj.
  rewrite (transpose_entry w m n j i Hw) by lia. reflexivity.
Qed.

Lemma reshape_to_ok {A} (t : gtensor A) (s : list nat) :
  length (data t) = numel s -> reshape_to t s = Ok (Tensor s (data t)).
Proof.
  intros Hl. unfold reshape_to, reshape.
  assert (Hk : known_dims (map Z.of_nat s) = map Z.of_nat s).
  { clear Hl. unfold known_dims. induction s as [|d s IH]; [reflexivity|].
    cbn [map List.filter]. destruct (Z.eqb_spec (Z.of_nat d) (-1)) as [E|_]; [lia|].
    cbn [negb]. f_equal. apply IH. }
  assert (Hf : forallb (fun d => (-1 <=? d)%Z) (map Z.of_nat s) = true).
  { apply forallb_forall. intros d Hd. apply in_map_iff in Hd.
    destruct Hd as (k & <- & _). apply Z.leb_le. lia. }
  assert (Hm : map Z.to_nat (map Z.of_nat s) = s).
  { rewrite map_map. rewrite <- (map_id s) at 2. apply map_ext.
    intros d. apply Nat2Z.id. }
  rewrite Hf, Hk, Nat.sub_diag, Hm, Hl, Nat.eqb_refl. reflexivity.
Qed.

(** [tf.reshape(t, [-1, n])]: the rows of length [n]. *)
Lemma reshape_rows {A} (t : gtensor A) (m n : nat) :
  length (data t) = (m * n)%nat -> (0 < n)%nat ->
  reshape t [-1; Z.of_nat n]%Z = Ok (Tensor [m; n] (data t)).
Proof.
  intros Hl Hn.
  assert (Hz : (Z.of_nat n =? -1)%Z = false) by (apply Z.eqb_neq; lia).
  assert (Hle : (-1 <=? Z.of_nat n)%Z = true) by (apply Z.leb_le; lia).
  unfold reshape, known_dims.
  cbn [List.filter forallb map length]. rewrite Hz, Hle.
  change (-1 =? -1)%Z with true. change (-1 <=? -1)%Z with true.
  cbn [negb andb length Nat.sub map numel fold_right].
  rewrite Nat2Z.id, Nat.mul_1_r, Hl.
  destruct (Nat.eqb_spec n 0) as [|_]; [lia|].
  rewrite Nat.Div0.mod_mul, Nat.div_mul by lia. reflexivity.
Qed.

(** [tf.reshape(t, [b, -1])]: one row per batch element. *)
Lemma reshape_batch {A} (t : gtensor A) (b n : nat) :
  length (data t) = (b * n)%nat -> (0 < b)%nat ->
  reshape t [Z.of_nat b; -1]%Z = Ok (Tensor [b; n] (data t)).
Proof.
  intros Hl Hb.
  assert (Hz : (Z.of_nat b =? -1)%Z = false) by (apply Z.eqb_neq; lia).
  assert (Hle : (-1 <=? Z.of_nat b)%Z = true) by (apply Z.leb_le; lia).
  unfold reshape, known_dims.
  cbn [List.filter forallb map length]. rewrite Hz, Hle.
  change (-1 =? -1)%Z with true. change (-1 <=? -1)%Z with true.
  cbn [negb andb length Nat.sub map numel fold_right].
  rewrite Nat2Z.id, Nat.mul_1_r, Hl.
  destruct (Nat.eqb_spec b 0) as [|_]; [lia|].
  rewrite (Nat.mul_comm b n), Nat.Div0.mod_mul, Nat.div_mul by lia.
  reflexivity.
Qed.

Lemma tensor_eta {A} (t : gtensor A) : Tensor (shape t) (data t) = t.
Proof. destruct t; reflexivity. Qed.

(* ===================================================================== *)

(** ** random_interpolates *)

(** With a given [alpha], in the arithmetic of any dtype: the entries of the
    result are [x + alpha * (y - x)], one operation after the other. *)
Lemma random_interpolates_entries {A} `{Arithmetic A} (x y alpha : gtensor A)
  (b : nat) (rest : list nat) (w : world) :
  shape x = b :: rest -> shape y = shape x -> wf x -> wf y ->
  (0 < b)%nat -> shape alpha = [b; 1%nat] ->
  random_interpolates x y (Some alpha) w
  = (Ok (Tensor (shape x)
           (map (interpolate_entry x y alpha (numel rest))
                (seq 0 (numel (shape x))))), w).
Proof.
  intros Hx Hy Wx Wy Hb Ha. unfold wf in Wx, Wy. rewrite Hy in Wy.
  rewrite Hx in *. cbn [numel fold_right] in *. fold (numel rest) in *.
  set (n := numel rest) in *.
  unfold random_interpolates. rewrite Hx.
  unfold bind, lift, ret, tsub, tmul, tadd.
  rewrite (reshape_batch x b n Wx Hb), (reshape_batch y b n Wy Hb).
  cbv beta iota.
  rewrite (broadcast2_same_shape ar_zero ar_sub (Tensor [b; n] (data y))
             (Tensor [b; n] (data x)) eq_refl).
  cbv beta iota.
  rewrite (broadcast2_column ar_zero ar_mul alpha _ b n Ha) by reflexivity.
  cbv beta iota.
  rewrite broadcast2_same_shape by reflexivity.
  cbv beta iota.
  cbn [shape data numel fold_right]. rewrite Nat.mul_1_r.
  rewrite reshape_to_ok
    by (cbn [data numel fold_right]; fold (numel rest);
        rewrite length_map, length_seq; reflexivity).
  cbn [data]. f_equal. f_equal. f_equal.
  apply map_ext_in. intros k Hk. apply in_seq in Hk.
  unfold interpolate_entry.
  rewrite (nth_map_seq _ (b * n) k) by lia.
  rewrite (nth_map_seq _ (b * n) k) by lia. reflexivity.
Qed.

Lemma nth_all {A} {d : A} (l : list A) (c : A) (i : nat) :
  Forall (fun a => a = c) l -> (i < length l)%nat -> nth i l d = c.
Proof.
  intros Hall. revert i.
  induction Hall as [|a l Ha _ IH]; intros [|i] Hi; cbn [length nth] in *;
    try lia; [exact Ha | apply IH; lia].
Qed.

(** The result is [t] when every computed entry is the entry of [t]. *)
Lemma random_interpolates_is {A} `{Arithmetic A} (x y alpha t : gtensor A)
  (b : nat) (rest : list nat) (w : world) :
  shape x = b :: rest -> shape y = shape x -> wf x -> wf y ->
  (0 < b)%nat -> shape alpha = [b; 1%nat] ->
  shape t = shape x -> wf t ->
  (forall k, (k < numel (shape x))%nat ->
             interpolate_entry x y alpha (numel rest) k
             = nth k (data t) ar_zero) ->
  random_interpolates x y (Some alpha) w = (Ok t, w).
Proof.
  intros Hx Hy Wx Wy Hb Ha Ht Wt Hk.
  rewrite (random_interpolates_entries x y alpha b rest w Hx Hy Wx Wy Hb Ha).
  f_equal. f_equal.
  transitivity (Tensor (shape t) (data t)); [|apply tensor_eta].
  rewrite Ht. f_equal.
  etransitivity; [|apply (@map_nth_seq _ ar_zero)].
  unfold wf in Wt. rewrite Wt, Ht.
  apply map_ext_in. intros k Hin. apply in_seq in Hin. apply Hk. lia.
Qed.

Lemma alpha_row {A} (alpha : gtensor A) (b : nat) (rest : list nat) (k : nat) :
  shape alpha = [b; 1%nat] -> wf alpha ->
  (k < numel (b :: rest))%nat ->
  (k / numel rest < length (data alpha))%nat.
Proof.
  intros Ha Wa Hk. unfold wf in Wa. rewrite Wa, Ha.
  cbn [numel fold_right] in *. fold (numel rest) in Hk.
  apply Nat.Div0.div_lt_upper_bound. lia.
Qed.

(** Exact arithmetic: [x] at [alpha = 0] and [y] at [alpha = 1]. *)
Lemma random_interpolates_exact (x y alpha : tensor) (b : nat)
  (rest : list nat) (w : world) :
  shape x = b :: rest -> shape y = shape x -> wf x -> wf y ->
  (0 < b)%nat -> shape alpha = [b; 1%nat] -> wf alpha ->
  (Forall (fun a => a = 0) (data alpha) ->
   random_interpolates x y (Some alpha) w = (Ok x, w))
  /\ (Forall (fun a => a = 1) (data alpha) ->
      random_interpolates x y (Some alpha) w = (Ok y, w)).
Proof.
  intros Hx Hy Wx Wy Hb Ha Wa. split; intros Hall.
  - apply (random_interpolates_is x y alpha x b rest w); auto.
    intros k Hk. unfold interpolate_entry. cbn [ar_zero ar_add ar_sub ar_mul exact].
    rewrite (nth_all _ 0 _ Hall)
      by (apply (alpha_row alpha b rest k Ha Wa); rewrite <- Hx; exact Hk).
    lra.
  - apply (random_interpolates_is x y alpha y b rest w); auto.
    intros k Hk. unfold interpolate_entry. cbn [ar_zero ar_add ar_sub ar_mul exact].
    rewrite (nth_all _ 1 _ Hall)
      by (apply (alpha_row alpha b rest k Ha Wa); rewrite <- Hx; exact Hk).
    lra.
Qed.

(** binary32: adding zero times a finite number changes nothing, unless the
    sum is of a negative and a positive zero. *)
Lemma binary32_add_zero_mul (v d : float32) :
  finite32 v = true -> v <> S754_zero true -> finite32 d = true ->
  SFadd 24 128 v (SFmul 24 128 (S754_zero false) d) = v.
Proof.
  destruct v as [[|]| | |sv mv ev]; destruct d as [[|]| | |[|] md ed];
    cbn [finite32]; intros Hv Hz Hd;
    try discriminate; try congruence; reflexivity.
Qed.

(** binary32: [x] at [alpha = 0], for finite entries whose difference does
    not overflow. *)
Lemma random_interpolates_binary32_zero (x y alpha : gtensor float32)
  (b : nat) (rest : list nat) (w : world) :
  shape x = b :: rest -> shape y = shape x -> wf x -> wf y ->
  (0 < b)%nat -> shape alpha = [b; 1%nat] -> wf alpha ->
  Forall (fun a => a = S754_zero false) (data alpha) ->
  Forall (fun v => finite32 v = true /\ v <> S754_zero true) (data x) ->
  (forall k, (k < numel (shape x))%nat ->
             finite32 (SFsub 24 128 (nth k (data y) (S754_zero false))
                                    (nth k (data x) (S754_zero false)))
             = true) ->
  random_interpolates x y (Some alpha) w = (Ok x, w).
Proof.
  intros Hx Hy Wx Wy Hb Ha Wa Hall Hfin Hsub.
  apply (random_interpolates_is x y alpha x b rest w); auto.
  intros k Hk. unfold interpolate_entry.
  cbn [ar_zero ar_add ar_sub ar_mul binary32].
  rewrite (nth_all (data alpha) (S754_zero false) _ Hall)
    by (apply (alpha_row alpha b rest k Ha Wa); rewrite <- Hx; exact Hk).
  assert (Hv : finite32 (nth k (data x) (S754_zero false)) = true
               /\ nth k (data x) (S754_zero false) <> S754_zero true).
  { rewrite List.Forall_forall in Hfin. apply Hfin, nth_In.
    unfold wf in Wx. rewrite Wx. exact Hk. }
  apply binary32_add_zero_mul; [apply Hv | apply Hv | apply Hsub, Hk].
Qed.

(** An empty batch cannot be flattened: [tf.reshape(x, [0, -1])]. *)
Lemma random_interpolates_empty_batch {A} `{Arithmetic A} (x y : gtensor A)
  (alpha : option (gtensor A)) (rest : list nat) (w : world) :
  shape x = 0%nat :: rest ->
  random_interpolates x y alpha w = (Raise ValueError, w).
Proof.
  intros Hx. unfold random_interpolates. rewrite Hx. reflexivity.
Qed.

(** C10 (amended). For tensors [x] and [y] of one shape whose first dimension
    is the batch size and a per-row coefficient [alpha] of shape [batch, 1]:
    - with a positive batch size, in the arithmetic of any dtype,
      [random_interpolates(x, y, alpha)] returns the tensor of the shape of
      [x] whose entries are [x + alpha * (y - x)], each row with its own
      coefficient, every operation computed (and rounded) by the dtype;
    - an empty batch raises;
    - in float32 it returns [x] when [alpha] is all zeros, [x] has finite
      entries none of which is the negative zero, and no [y - x] overflows;
    - in exact arithmetic it returns [x] when [alpha] is all zeros and [y]
      when [alpha] is all ones. *)
Theorem random_interpolates_spec :
  (forall (A : Type) (dtype : Arithmetic A) (x y alpha : gtensor A) (b : nat)
          (rest : list nat) (w : world),
      shape x = b :: rest -> shape y = shape x -> wf x -> wf y ->
      (0 < b)%nat -> shape alpha = [b; 1%nat] ->
      random_interpolates x y (Some alpha) w
      = (Ok (Tensor (shape x)
               (map (fun k =>
                       ar_add (nth k (data x) ar_zero)
                         (ar_mul (nth (k / numel rest) (data alpha) ar_zero)
                            (ar_sub (nth k (data y) ar_zero)
                                    (nth k (data x) ar_zero))))
                    (seq 0 (numel (shape x))))), w))
  /\ (forall (A : Type) (dtype : Arithmetic A) (x y : gtensor A)
             (alpha : option (gtensor A)) (rest : list nat) (w : world),
         shape x = 0%nat :: rest ->
         random_interpolates x y alpha w = (Raise ValueError, w))
  /\ (forall (x y alpha : gtensor float32) (b : nat) (rest : list nat)
             (w : world),
         shape x = b :: rest -> shape y = shape x -> wf x -> wf y ->
         (0 < b)%nat -> shape alpha = [b; 1%nat] -> wf alpha ->
         Forall (fun a => a = S754_zero false) (data alpha) ->
         Forall (fun v => finite32 v = true /\ v <> S754_zero true) (data x) ->
         (forall k, (k < numel (shape x))%nat ->
                    finite32 (SFsub 24 128 (nth k (data y) (S754_zero false))
                                           (nth k (data x) (S754_zero false)))
                    = true) ->
         random_interpolates x y (Some alpha) w = (Ok x, w))
  /\ (forall (x y alpha : tensor) (b : nat) (rest : list nat) (w : world),
         shape x = b :: rest -> shape y = shape x -> wf x -> wf y ->
         (0 < b)%nat -> shape alpha = [b; 1%nat] -> wf alpha ->
         (Forall (fun a => a = 0) (data alpha) ->
          random_interpolates x y (Some alpha) w = (Ok x, w))
         /\ (Forall (fun a => a = 1) (data alpha) ->
             random_interpolates x y (Some alpha) w = (Ok y, w))).
Proof.
  split; [|split; [|split]].
  - intros A dtype x y alpha b rest w Hx Hy Wx Wy Hb Ha.
    apply (random_interpolates_entries x y alpha b rest w Hx Hy Wx Wy Hb Ha).
  - intros A dtype x y alpha rest w Hx.
    apply (random_interpolates_empty_batch x y alpha rest w Hx).
  - exact random_interpolates_binary32_zero.
  - exact random_interpolates_exact.
Qed.

(** In float32, on [x = [[3; 0.1]]] and [y = [[0.1; 1]]] with [alpha = 0]. *)
Lemma random_interpolates_spec_witness :
  random_interpolates (Tensor [1; 2]%nat [f32_three; f32_tenth])
                      (Tensor [1; 2]%nat [f32_tenth; f32_one])
                      (Some (Tensor [1; 1]%nat [S754_zero false])) empty_world
  = (Ok (Tensor [1; 2]%nat [f32_three; f32_tenth]), empty_world).
Proof.
  refine (proj1 (proj2 (proj2 random_interpolates_spec))
            (Tensor [1; 2]%nat [f32_three; f32_tenth])
            (Tensor [1; 2]%nat [f32_tenth; f32_one])
            (Tensor [1; 1]%nat [S754_zero false]) 1%nat [2%nat] empty_world
            eq_refl eq_refl eq_refl eq_refl (Nat.lt_0_succ 0) eq_refl eq_refl
            _ _ _).
  - repeat constructor.
  - repeat constructor; discriminate.
  - intros [|[|k]] Hk; [reflexivity | reflexivity | cbn in Hk; lia].
Defined.

(** C10 (counterexample). In float32, with [x = 3], [y] the float nearest to
    [0.1] and [alpha = 1], [random_interpolates] returns [0.0999999046...]
    ([13421760 * 2^-27]) and not [y] ([13421773 * 2^-27]): the difference
    [y - x] is rounded before [x] is added back. *)
Lemma random_interpolates_float32_misses_y :
  random_interpolates (Tensor [1; 1]%nat [f32_three])
                      (Tensor [1; 1]%nat [f32_tenth])
                      (Some (Tensor [1; 1]%nat [f32_one])) empty_world
  = (Ok (Tensor [1; 1]%nat [S754_finite false 13421760 (-27)]), empty_world)
  /\ fst (random_interpolates (Tensor [1; 1]%nat [f32_three])
                              (Tensor [1; 1]%nat [f32_tenth])
                              (Some (Tensor [1; 1]%nat [f32_one])) empty_world)
     <> Ok (Tensor [1; 1]%nat [f32_tenth]).
Proof.
  assert (E : random_interpolates (Tensor [1; 1]%nat [f32_three])
                (Tensor [1; 1]%nat [f32_tenth])
                (Some (Tensor [1; 1]%nat [f32_one])) empty_world
              = (Ok (Tensor [1; 1]%nat [S754_finite false 13421760 (-27)]),
                 empty_world)).
  { rewrite (random_interpolates_entries (Tensor [1; 1]%nat [f32_three])
               (Tensor [1; 1]%nat [f32_tenth]) (Tensor [1; 1]%nat [f32_one])
               1 [1%nat] empty_world eq_refl eq_refl eq_refl eq_refl
               (Nat.lt_0_succ 0) eq_refl).
    reflexivity. }
  split; [exact E|]. rewrite E. cbn [fst]. intros H. discriminate H.
Qed.

(* ===================================================================== *)
(** ** The hinge loss *)

Lemma reduce_mean_nonneg (t : tensor) :
  data t <> [] -> Forall (fun x => 0 <= x) (data t) -> 0 <= reduce_mean t.
Proof.
  intros Hne H. unfold reduce_mean, Rdiv.
  apply Rmult_le_pos; [apply Rsum_nonneg, H|].
  left. apply Rinv_0_lt_compat, lt_0_INR.
  destruct (data t); [contradiction | cbn; lia].
Qed.

Lemma relu_nonneg (t : tensor) : Forall (fun x => 0 <= x) (data (relu t)).
Proof.
  unfold relu, tmap. cbn [data]. apply List.Forall_forall. intros x Hx.
  apply in_map_iff in Hx. destruct Hx as (v & <- & _). apply Rmax_r.
Qed.

Lemma gan_hinge_loss_value (pos neg : tensor) (value : R) (name : string)
  (w : world) :
  fst (gan_hinge_loss pos neg value name w)
  = Ok (- reduce_mean neg,
        0.5 * reduce_mean (relu (tmap (fun p => 1 - p) pos))
        + 0.5 * reduce_mean (relu (tmap (fun n => 1 + n) neg))).
Proof. reflexivity. Qed.

(** C3 (counterexample). With scores [pos = [0]] and [neg = [1]] the generator
    loss of [gan_hinge_loss] is [-1]. *)
Lemma gan_hinge_loss_generator_negative :
  match fst (gan_hinge_loss (Tensor [1%nat] [0]) (Tensor [1%nat] [1])
                            default_value "gan_hinge_loss" empty_world) with
  | Ok (g_loss, d_loss) => g_loss < 0
  | Raise _ => False
  end.
Proof.
  rewrite gan_hinge_loss_value. unfold reduce_mean. cbn. lra.
Qed.

(** C3 (amended). For all non-empty score tensors, the discriminator loss of
    [gan_hinge_loss] is non-negative; the generator loss is minus the mean of
    [neg], so it is non-negative exactly when that mean is not positive. *)
Theorem gan_hinge_loss_discriminator_nonneg (pos neg : tensor) (value : R)
  (name : string) (w : world) :
  data pos <> [] -> data neg <> [] ->
  exists g_loss d_loss,
    fst (gan_hinge_loss pos neg value name w) = Ok (g_loss, d_loss)
    /\ 0 <= d_loss
    /\ g_loss = - reduce_mean neg
    /\ (0 <= g_loss <-> reduce_mean neg <= 0).
Proof.
  intros Hpos Hneg. eexists _, _. split; [apply gan_hinge_loss_value|].
  split; [|split; [reflexivity | lra]].
  assert (Hne : forall f t, data t <> [] -> data (relu (tmap f t)) <> []).
  { intros f t Ht E. apply Ht. cbn [relu tmap data] in E.
    destruct (data t); [reflexivity | discriminate]. }
  pose proof (reduce_mean_nonneg _ (Hne (fun p => 1 - p) pos Hpos)
                (relu_nonneg _)).
  pose proof (reduce_mean_nonneg _ (Hne (fun n => 1 + n) neg Hneg)
                (relu_nonneg _)).
  lra.
Qed.

Lemma gan_hinge_loss_discriminator_nonneg_witness :
  exists g_loss d_loss,
    fst (gan_hinge_loss (Tensor [2%nat] [2; 0]) (Tensor [2%nat] [-3; 1])
                        default_value "gan_hinge_loss" empty_world)
    = Ok (g_loss, d_loss)
    /\ 0 <= d_loss
    /\ g_loss = - reduce_mean (Tensor [2%nat] [-3; 1])
    /\ (0 <= g_loss <-> reduce_mean (Tensor [2%nat] [-3; 1]) <= 0).
Proof.
  apply gan_hinge_loss_discriminator_nonneg; cbn [data]; discriminate.
Defined.

(** ** The four losses are functions of the scores alone *)

Lemma gan_ls_loss_value (pos neg : tensor) (value : R) (name : string)
  (w : world) :
  fst (gan_ls_loss pos neg value name w)
  = Ok (reduce_mean (squared_difference neg value),
        0.5 * reduce_mean (squared_difference pos value)
        + 0.5 * reduce_mean (square neg)).
Proof. reflexivity. Qed.

Lemma gan_wgan_loss_value (pos neg : tensor) (name : string) (w : world) :
  fst (gan_wgan_loss pos neg name w)
  = rbind (tsub neg pos)
          (fun diff => Ok (- reduce_mean neg, reduce_mean diff)).
Proof.
  unfold gan_wgan_loss, variable_scope, bind, lift.
  destruct (tsub neg pos); reflexivity.
Qed.

Lemma gan_log_loss_value (pos neg : tensor) (name : string) (w : world) :
  fst (gan_log_loss pos neg name w)
  = rbind (sigmoid_cross_entropy_with_logits neg (ones_like neg)) (fun ce_g =>
    rbind (sigmoid_cross_entropy_with_logits pos (ones_like pos)) (fun ce_pos =>
    rbind (sigmoid_cross_entropy_with_logits neg (zeros_like neg)) (fun ce_neg =>
    Ok (reduce_mean ce_g,
        0.5 * reduce_mean ce_pos + 0.5 * reduce_mean ce_neg)))).
Proof.
  unfold gan_log_loss, variable_scope, bind, lift.
  destruct (sigmoid_cross_entropy_with_logits neg (ones_like neg));
    [|reflexivity].
  destruct (sigmoid_cross_entropy_with_logits pos (ones_like pos));
    [|reflexivity].
  destruct (sigmoid_cross_entropy_with_logits neg (zeros_like neg));
    reflexivity.
Qed.

Lemma gan_losses_frame (pos neg : tensor) (value : R) (name : string)
  (w : world) :
  same_persistent w (snd (gan_log_loss pos neg name w))
  /\ same_persistent w (snd (gan_ls_loss pos neg value name w))
  /\ same_persistent w (snd (gan_hinge_loss pos neg value name w))
  /\ same_persistent w (snd (gan_wgan_loss pos neg name w)).
Proof.
  unfold same_persistent, gan_log_loss, gan_ls_loss, gan_hinge_loss,
    gan_wgan_loss, variable_scope, bind, lift.
  repeat split;
    repeat match goal with
           | |- context [match ?r with Ok _ => _ | Raise _ => _ end] =>
               destruct r
           end; reflexivity.
Qed.

Lemma gan_wgan_loss_defined (pos neg : tensor) (name : string) (w : world) :
  shape pos = shape neg -> is_ok (fst (gan_wgan_loss pos neg name w)) = true.
Proof.
  intros Hs. rewrite gan_wgan_loss_value. unfold tsub.
  rewrite (broadcast2_same_shape ar_zero ar_sub neg pos (eq_sym Hs)).
  reflexivity.
Qed.

(** C4. Each of [gan_log_loss], [gan_ls_loss], [gan_hinge_loss] and
    [gan_wgan_loss] is a function of its score tensors (and of [value] where it
    has one): two calls with the same scores return the same
    [(g_loss, d_loss)] whatever the scope names and the states of the
    framework are, and a call leaves the variable store, the files, the log
    and the scope as they were (it only records summaries).  The first three
    return a pair for all score tensors, the last one for scores of one
    shape. *)
Theorem gan_losses_pure (pos neg : tensor) (value : R) (name1 name2 : string)
  (w1 w2 : world) :
  (fst (gan_log_loss pos neg name1 w1) = fst (gan_log_loss pos neg name2 w2)
   /\ fst (gan_ls_loss pos neg value name1 w1)
      = fst (gan_ls_loss pos neg value name2 w2)
   /\ fst (gan_hinge_loss pos neg value name1 w1)
      = fst (gan_hinge_loss pos neg value name2 w2)
   /\ fst (gan_wgan_loss pos neg name1 w1)
      = fst (gan_wgan_loss pos neg name2 w2))
  /\ (same_persistent w1 (snd (gan_log_loss pos neg name1 w1))
      /\ same_persistent w1 (snd (gan_ls_loss pos neg value name1 w1))
      /\ same_persistent w1 (snd (gan_hinge_loss pos neg value name1 w1))
      /\ same_persistent w1 (snd (gan_wgan_loss pos neg name1 w1)))
  /\ (is_ok (fst (gan_log_loss pos neg name1 w1)) = true
      /\ is_ok (fst (gan_ls_loss pos neg value name1 w1)) = true
      /\ is_ok (fst (gan_hinge_loss pos neg value name1 w1)) = true
      /\ (shape pos = shape neg ->
          is_ok (fst (gan_wgan_loss pos neg name1 w1)) = true)).
Proof.
  split; [|split; [apply gan_losses_frame|]].
  - rewrite !gan_log_loss_value, !gan_ls_loss_value, !gan_hinge_loss_value,
      !gan_wgan_loss_value.
    repeat split.
  - rewrite gan_log_loss_value, gan_ls_loss_value, gan_hinge_loss_value.
    split; [|split; [reflexivity|split; [reflexivity|]]].
    + unfold sigmoid_cross_entropy_with_logits, ones_like, zeros_like, tmap.
      cbn [shape].
      destruct (decide (shape neg = shape neg)); [|contradiction].
      destruct (decide (shape pos = shape pos)); [|contradiction].
      reflexivity.
    + apply gan_wgan_loss_defined.
Qed.

(** ** gradients_penalty *)

Lemma Rsum_map_zero (A : Type) (f : A -> R) (l : list A) :
  (forall a, In a l -> f a = 0) -> Rsum (map f l) = 0.
Proof.
  intros H. induction l as [|a l IH]; [reflexivity|].
  change (Rsum (map f (a :: l))) with (f a + Rsum (map f l)).
  rewrite (H a) by (now left). rewrite IH; [lra|].
  intros b Hb. apply H. now right.
Qed.

(** C2. When the masked gradient norm of every batch element (the [slopes]
    of the code) equals [norm], [gradients_penalty] returns exactly zero. *)
Theorem gradients_penalty_zero
  (tf_gradients : (tensor -> tensor) -> tensor -> option tensor)
  (x : tensor) (y : tensor -> tensor) (mask : option tensor) (norm : R)
  (gradients sl : tensor) (w : world) :
  tf_gradients y x = Some gradients ->
  slopes gradients mask = Ok sl ->
  data sl <> [] ->
  Forall (fun s => s = norm) (data sl) ->
  gradients_penalty tf_gradients x y mask norm w = (Ok 0, w).
Proof.
  intros Hg Hs Hne Hall. unfold gradients_penalty, bind, lift, ret.
  rewrite Hg, Hs. cbv beta iota. f_equal. f_equal.
  unfold reduce_mean, square, tmap. cbn [data].
  rewrite map_map, Rsum_map_zero; [apply Rdiv_0_l|].
  intros s Hin. rewrite List.Forall_forall in Hall.
  rewrite (Hall s Hin). lra.
Qed.

Lemma gradients_penalty_zero_witness :
  gradients_penalty (fun _ _ => Some (Tensor [1; 1; 1; 2]%nat [3; 4]))
    (Tensor [1; 1; 1; 2]%nat [0; 0]) (fun t => t) None 5 empty_world
  = (Ok 0, empty_world).
Proof.
  assert (H5 : sqrt (3 * 3 * 1 + (4 * 4 * 1 + 0)) = 5).
  { replace (3 * 3 * 1 + (4 * 4 * 1 + 0)) with (5 * 5) by lra.
    apply sqrt_square. lra. }
  apply (gradients_penalty_zero _ _ _ None 5
           (Tensor [1; 1; 1; 2]%nat [3; 4])
           (Tensor [1%nat] [sqrt (3 * 3 * 1 + (4 * 4 * 1 + 0))])).
  - reflexivity.
  - reflexivity.
  - discriminate.
  - constructor; [exact H5 | constructor].
Defined.

(* ===================================================================== *)
(** ** kernel_spectral_norm: one forward pass *)

Lemma map_nth_seq_f (f : R -> R) (l : list R) (n : nat) :
  n = length l ->
  map (fun k => f (nth k l 0)) (seq 0 n) = map f l.
Proof.
  intros ->. rewrite <- (@map_nth_seq _ 0 l) at 2. rewrite map_map.
  reflexivity.
Qed.

Lemma l2_norm_data (t : tensor) :
  data (l2_norm t default_epsilon) = normalize (data t).
Proof. reflexivity. Qed.

Lemma l2_norm_shape (t : tensor) : shape (l2_norm t default_epsilon) = shape t.
Proof. reflexivity. Qed.

(** The tensor code of [power_iteration] computes the step on vectors. *)
Lemma power_iteration_step (w_mat u : tensor) (m n : nat) (ite : Z) :
  shape w_mat = [m; n] -> shape u = [1%nat; n] ->
  power_iteration w_mat u ite
  = Ok (Tensor [1%nat; n] (fst (fst (step (data w_mat) (data u) m n))),
        Tensor [1%nat; m] (snd (fst (step (data w_mat) (data u) m n))),
        (ite + 1)%Z).
Proof.
  intros Hw Hu. unfold power_iteration.
  rewrite (matmul_row_transpose u w_mat m n Hu Hw). cbn [rbind].
  rewrite (matmul_row _ w_mat m n) by (reflexivity || exact Hw).
  cbn [rbind]. reflexivity.
Qed.

Lemma last_shape (s : list nat) (n : nat) : last (s ++ [n]) = Some n.
Proof. apply last_snoc. Qed.

Lemma get_variable_u (w : world) (sc : string) (n : nat) :
  let w1 := set_scope sc w in
  match variables w !! (sc ++ "u")%string with
  | Some t => shape t = [1%nat; n]
  | None => True
  end ->
  get_variable "u" [1%nat; n] truncated_normal w1
  = (Ok (Variable_ (sc ++ "u") [1%nat; n]),
     match variables w !! (sc ++ "u")%string with
     | Some _ => w1
     | None => set_variables (insert (sc ++ "u")%string
                                (sample (truncated_normal w) [1%nat; n])) w1
     end).
Proof.
  intros w1 H. unfold get_variable. cbn [scope variables w1 set_scope].
  destruct (variables w !! (sc ++ "u")%string) as [t|]; [|reflexivity].
  destruct (decide (shape t = [1%nat; n])); [reflexivity | contradiction].
Qed.

(** One forward pass, computed: the kernel divided by the [sigma] of one
    step from the persisted [u], and [u] replaced by the step's [u_hat]. *)
Lemma kernel_spectral_norm_eval (kernel : tensor) (iteration : Z)
  (name : string) (w : world) (s : list nat) (n : nat) :
  shape kernel = s ++ [n] -> wf kernel -> (0 < n)%nat -> u_ready w name n ->
  let u := data (persisted_u w name n) in
  let u_hat := fst (fst (step (data kernel) u (numel s) n)) in
  let sigma := snd (step (data kernel) u (numel s) n) in
  kernel_spectral_norm kernel iteration name w
  = (Ok (normalized_kernel kernel sigma),
     set_variables (insert (u_key w name) (Tensor [1%nat; n] u_hat)) w).
Proof.
  intros Hs Wk Hn Hu u u_hat sigma.
  assert (Hlen : length (data kernel) = (numel s * n)%nat).
  { unfold wf in Wk. rewrite Wk, Hs, numel_app. cbn. lia. }
  unfold kernel_spectral_norm, variable_scope.
  rewrite Hs, last_shape. unfold bind at 1. unfold lift at 1.
  rewrite (reshape_rows kernel (numel s) n Hlen Hn).
  unfold bind at 1.
  rewrite (get_variable_u w (scope w ++ name ++ "/") n Hu).
  set (w2 := match variables w !! _ with Some _ => _ | None => _ end).
  assert (Hread : read (Variable_ ((scope w ++ name ++ "/") ++ "u") [1%nat; n]) w2
                  = (Ok (persisted_u w name n), w2)).
  { unfold read, persisted_u, u_key, w2. cbn [var_name].
    destruct (variables w !! ((scope w ++ name ++ "/") ++ "u")%string) eqn:E;
      cbn [variables set_scope set_variables default].
    - rewrite E. reflexivity.
    - rewrite lookup_insert_eq. reflexivity. }
  unfold bind at 1. rewrite Hread.
  assert (Hshape : shape (persisted_u w name n) = [1%nat; n]).
  { unfold persisted_u, u_ready in *.
    destruct (variables w !! u_key w name); [exact Hu | reflexivity]. }
  unfold bind at 1. unfold lift at 1.
  rewrite (power_iteration_step _ (persisted_u w name n) (numel s) n)
    by (reflexivity || exact Hshape).
  cbn [data]. fold u.
  unfold bind at 1. unfold lift at 1.
  rewrite (matmul_row _ (Tensor [numel s; n] (data kernel)) (numel s) n)
    by reflexivity.
  unfold bind at 1. unfold lift at 1.
  rewrite (matmul_row_transpose _ (Tensor [1%nat; n] (fst (fst (step (data kernel) u (numel s) n)))) 1 n)
    by reflexivity.
  unfold bind at 1. unfold lift at 1. unfold tdiv.
  rewrite (broadcast2_one_by_one 0 Rdiv _ _ (numel s) n) by reflexivity.
  unfold bind at 1. unfold assign at 1.
  unfold lift.
  rewrite reshape_to_ok
    by (cbn [data]; rewrite length_map, length_seq, numel_app; cbn; lia).
  f_equal.
  - f_equal. unfold normalized_kernel. rewrite Hs. f_equal. cbn [data].
    rewrite (map_nth_seq_f (fun x => x / sigma)) by (symmetry; exact Hlen).
    reflexivity.
  - unfold w2, u_key.
    destruct (variables w !! ((scope w ++ name ++ "/") ++ "u")%string);
      cbn [set_variables set_scope variables summaries files cache_writable
             network log scope truncated_normal random_bits var_name].
    + reflexivity.
    + unfold set_scope, set_variables.
      cbn [variables summaries files cache_writable network log scope
             truncated_normal random_bits].
      rewrite insert_insert_eq. reflexivity.
Qed.

Lemma Rlt_div (t x d : R) : 0 < d -> t * d < x -> t < x / d.
Proof.
  intros Hd H. unfold Rdiv. apply Rmult_lt_reg_r with d; [exact Hd|].
  rewrite Rmult_assoc, Rinv_l by lra. lra.
Qed.

Lemma Rdiv_lt (t x d : R) : 0 < d -> x < t * d -> x / d < t.
Proof.
  intros Hd H. unfold Rdiv. apply Rmult_lt_reg_r with d; [exact Hd|].
  rewrite Rmult_assoc, Rinv_l by lra. lra.
Qed.

Lemma default_epsilon_pos : 0 < default_epsilon.
Proof. unfold default_epsilon. lra. Qed.

Lemma normalize_single (a : R) : 0 <= a -> normalize [a] = [nrm a].
Proof.
  intros Ha. unfold normalize, norm2, nrm. cbn [map Rsum fold_right].
  replace (a ^ 2 + 0) with (a ^ 2) by lra. rewrite sqrt_pow2 by exact Ha.
  reflexivity.
Qed.

Lemma nrm_nonneg (x : R) : 0 <= x -> 0 <= nrm x.
Proof.
  intros Hx. pose proof default_epsilon_pos. unfold nrm, Rdiv.
  apply Rmult_le_pos; [exact Hx|]. left. apply Rinv_0_lt_compat. lra.
Qed.

(** The step on a one-by-one kernel [[1]]. *)
Lemma step_one_by_one (x : R) :
  0 <= x ->
  step [1] [x] 1 1 = ([nrm (nrm x)], [nrm x], nrm x * nrm (nrm x)).
Proof.
  intros Hx. unfold step, vec_mat_t, vec_mat, dot.
  cbn [map seq nth Rsum fold_right Nat.mul Nat.add].
  replace (x * 1 + 0) with x by lra.
  rewrite (normalize_single x Hx). cbn [nth].
  replace (nrm x * 1 + 0) with (nrm x) by lra.
  rewrite (normalize_single (nrm x) (nrm_nonneg x Hx)). cbn [nth].
  f_equal. lra.
Qed.

Lemma nrm_epsilon : nrm default_epsilon = 1 / 2.
Proof. unfold nrm, default_epsilon. field. Qed.

Lemma nrm_half_bounds : 9 / 10 < nrm (1 / 2) < 1.
Proof.
  unfold nrm, default_epsilon. split.
  - apply Rlt_div; lra.
  - apply Rdiv_lt; lra.
Qed.

Lemma nrm_near_one (a : R) : 9 / 10 < a -> 9 / 10 < nrm a.
Proof.
  intros Ha. unfold nrm, default_epsilon. apply Rlt_div; lra.
Qed.

(** C1 (amended). One forward pass of [kernel_spectral_norm] performs exactly
    one power-iteration step, whatever [iteration] is: the persisted [u] is
    propagated as it is (it is not normalised first) through the transpose of
    the reshaped weight matrix and the result is normalised to [v_hat];
    [v_hat] is propagated through the matrix and the result normalised to
    [u_hat]; [sigma = v_hat W u_hat^T]; the value returned is the kernel
    divided by [sigma], in the kernel's shape, and [u_hat] is assigned to
    [u]. *)
Theorem kernel_spectral_norm_step (kernel : tensor) (iteration : Z)
  (name : string) (w : world) (s : list nat) (n : nat) :
  shape kernel = s ++ [n] -> wf kernel -> (0 < n)%nat -> u_ready w name n ->
  let W := data kernel in
  let m := numel s in
  let u := data (persisted_u w name n) in
  let v_hat := normalize (vec_mat_t u W m n) in
  let u_hat := normalize (vec_mat v_hat W m n) in
  let sigma := dot (vec_mat v_hat W m n) u_hat n in
  kernel_spectral_norm kernel iteration name w
  = (Ok (Tensor (shape kernel) (map (fun x => x / sigma) W)),
     set_variables (insert (u_key w name) (Tensor [1%nat; n] u_hat)) w).
Proof.
  intros Hs Wk Hn Hu. cbv zeta.
  apply (kernel_spectral_norm_eval kernel iteration name w s n Hs Wk Hn Hu).
Qed.

Lemma kernel_spectral_norm_step_witness :
  let kernel := Tensor [1; 1; 2; 2]%nat [2; 0; 0; 1] in
  let w := World (<["kernel_sn/u"%string := Tensor [1; 2]%nat [0; 1]]> ∅)
                 [] ∅ true ∅ [] "" (fun _ => 0) (fun _ => 0%N) (fun _ => false) in
  let W := data kernel in
  let m := numel [1; 1; 2]%nat in
  let u := data (persisted_u w "kernel_sn" 2) in
  let v_hat := normalize (vec_mat_t u W m 2) in
  let u_hat := normalize (vec_mat v_hat W m 2) in
  let sigma := dot (vec_mat v_hat W m 2) u_hat 2 in
  kernel_spectral_norm kernel 1 "kernel_sn" w
  = (Ok (Tensor (shape kernel) (map (fun x => x / sigma) W)),
     set_variables (insert (u_key w "kernel_sn") (Tensor [1; 2]%nat u_hat)) w).
Proof.
  intros kernel w.
  exact (kernel_spectral_norm_step kernel 1 "kernel_sn" w [1; 1; 2]%nat 2
           eq_refl eq_refl (Nat.lt_0_succ 1) eq_refl).
Defined.

(** C1 (counterexample). On the one-by-one kernel [[1]] with the persisted
    [u = [1e-12]], the value returned is not the kernel divided by the [sigma]
    of a step that first normalises [u]. *)
Lemma kernel_spectral_norm_propagates_raw_u :
  fst (kernel_spectral_norm sn_kernel 1 "kernel_sn"
         (sn_world [default_epsilon]))
  <> Ok (normalized_kernel sn_kernel
           (snd (step_normalizing_u (data sn_kernel) [default_epsilon] 1 1))).
Proof.
  pose proof default_epsilon_pos as He.
  rewrite (kernel_spectral_norm_eval sn_kernel 1 "kernel_sn"
             (sn_world [default_epsilon]) [1; 1; 1]%nat 1
             eq_refl eq_refl (Nat.lt_0_succ 0) eq_refl).
  cbn [fst].
  change (data (persisted_u (sn_world [default_epsilon]) "kernel_sn" 1))
    with [default_epsilon].
  change (numel [1; 1; 1]%nat) with 1%nat.
  unfold step_normalizing_u. cbn [data sn_kernel].
  rewrite (normalize_single default_epsilon) by lra.
  rewrite !step_one_by_one by (try apply nrm_nonneg; lra).
  cbn [snd]. rewrite nrm_epsilon.
  pose proof nrm_half_bounds as [Ha1 Ha2].
  pose proof (nrm_near_one _ Ha1) as Hb.
  set (a := nrm (1 / 2)) in *. set (b := nrm a) in *.
  unfold normalized_kernel. cbn [data shape map].
  intros H. injection H as H.
  assert (Hc : 1 / 2 * a <> 0) by lra.
  assert (Hd : a * b <> 0) by nra.
  assert (E : 1 / 2 * a = a * b).
  { apply Rinv_eq_reg. unfold Rdiv in H at 1 3. lra. }
  nra.
Qed.

(** ** The only persistent effect of a forward pass *)

Lemma set_scope_back (w : world) (sc : string) :
  set_scope (scope w) (set_scope sc w) = w.
Proof. destruct w; reflexivity. Qed.

Lemma kernel_spectral_norm_scalar (kernel : tensor) (iteration : Z)
  (name : string) (w : world) :
  shape kernel = [] ->
  kernel_spectral_norm kernel iteration name w = (Raise ValueError, w).
Proof.
  intros Hs. unfold kernel_spectral_norm, variable_scope. rewrite Hs.
  cbn [last raise]. rewrite set_scope_back. reflexivity.
Qed.

Lemma reshape_rows_zero (t : tensor) :
  reshape t [-1; Z.of_nat 0]%Z = Raise ValueError.
Proof. reflexivity. Qed.

Lemma kernel_spectral_norm_no_channels (kernel : tensor) (iteration : Z)
  (name : string) (w : world) (s : list nat) :
  shape kernel = s ++ [0%nat] ->
  kernel_spectral_norm kernel iteration name w = (Raise ValueError, w).
Proof.
  intros Hs. unfold kernel_spectral_norm, variable_scope.
  rewrite Hs, last_shape. unfold bind at 1. unfold lift at 1.
  rewrite reshape_rows_zero, set_scope_back. reflexivity.
Qed.

Lemma kernel_spectral_norm_u_mismatch (kernel : tensor) (iteration : Z)
  (name : string) (w : world) (s : list nat) (n : nat) :
  shape kernel = s ++ [n] -> wf kernel -> (0 < n)%nat -> ~ u_ready w name n ->
  kernel_spectral_norm kernel iteration name w = (Raise ValueError, w).
Proof.
  intros Hs Wk Hn Hu.
  assert (Hlen : length (data kernel) = (numel s * n)%nat).
  { unfold wf in Wk. rewrite Wk, Hs, numel_app. cbn. lia. }
  unfold kernel_spectral_norm, variable_scope.
  rewrite Hs, last_shape. unfold bind at 1. unfold lift at 1.
  rewrite (reshape_rows kernel (numel s) n Hlen Hn).
  unfold bind at 1. unfold get_variable. cbn [scope variables set_scope].
  unfold u_ready, u_key in Hu.
  destruct (variables w !! ((scope w ++ name ++ "/") ++ "u")%string) as [t|];
    [|tauto].
  destruct (decide (shape t = [1%nat; n])); [contradiction|].
  rewrite set_scope_back. reflexivity.
Qed.

(** C5. A forward pass of [kernel_spectral_norm] on a (well-formed) kernel
    with a positive number of output channels, when the store holds no [u] of
    another shape, succeeds and changes one piece of persistent state: it
    returns the normalised weight, the kernel divided by [sigma], as a fresh
    tensor that is stored nowhere; afterwards the variable [u] of its scope
    holds the new estimate [u_hat], every other variable of the store (the
    kernel's among them) keeps its value, and summaries, files, network, log
    and scope are as before.  A pass that raises changes nothing. *)
Theorem kernel_spectral_norm_frame (kernel : tensor) (iteration : Z)
  (name : string) (w : world) :
  wf kernel ->
  (forall (s : list nat) (n : nat),
      shape kernel = s ++ [n] -> (0 < n)%nat -> u_ready w name n ->
      let W := data kernel in
      let m := numel s in
      let u := data (persisted_u w name n) in
      let v_hat := normalize (vec_mat_t u W m n) in
      let u_hat := normalize (vec_mat v_hat W m n) in
      let sigma := dot (vec_mat v_hat W m n) u_hat n in
      exists w',
        kernel_spectral_norm kernel iteration name w
        = (Ok (Tensor (shape kernel) (map (fun x => x / sigma) W)), w')
        /\ variables w' !! u_key w name = Some (Tensor [1%nat; n] u_hat)
        /\ (forall k : string, k <> u_key w name ->
                               variables w' !! k = variables w !! k)
        /\ summaries w' = summaries w /\ files w' = files w
        /\ cache_writable w' = cache_writable w /\ network w' = network w
        /\ log w' = log w /\ scope w' = scope w)
  /\ (forall (e : error) (w' : world),
         kernel_spectral_norm kernel iteration name w = (Raise e, w') ->
         w' = w).
Proof.
  intros Wk. split.
  - intros s n Hshape Hn Hu. cbv zeta.
    eexists. split.
    + apply (kernel_spectral_norm_eval kernel iteration name w s n Hshape Wk
               Hn Hu).
    + cbn [variables set_variables summaries files cache_writable network
             log scope].
      split; [apply lookup_insert_eq|].
      split; [|auto 10].
      intros k Hk. apply lookup_insert_ne. congruence.
  - intros e w' H.
    destruct (shape kernel) as [|d s0] eqn:Hshape using rev_ind.
    + rewrite (kernel_spectral_norm_scalar _ _ _ _ Hshape) in H. congruence.
    + clear IHs0. rename s0 into s, d into n.
      destruct (Nat.eq_dec n 0%nat) as [->|Hn].
      * rewrite (kernel_spectral_norm_no_channels _ _ _ _ s Hshape) in H.
        congruence.
      * assert (Hu : Decision (u_ready w name n)).
        { unfold u_ready. destruct (variables w !! u_key w name); apply _. }
        destruct Hu as [Hu|Hu].
        -- rewrite (kernel_spectral_norm_eval kernel iteration name w s n Hshape
                      Wk ltac:(lia) Hu) in H.
           discriminate H.
        -- rewrite (kernel_spectral_norm_u_mismatch kernel iteration name w s n
                      Hshape Wk ltac:(lia) Hu) in H.
           congruence.
Qed.

(** On the kernel [diag(2, 1)] with the persisted [u = [0; 1]]. *)
Lemma kernel_spectral_norm_frame_witness :
  let w := diag_world [0; 1] in
  let W := data diag_kernel in
  let m := numel [1; 1; 2]%nat in
  let u := data (persisted_u w "kernel_sn" 2) in
  let v_hat := normalize (vec_mat_t u W m 2) in
  let u_hat := normalize (vec_mat v_hat W m 2) in
  let sigma := dot (vec_mat v_hat W m 2) u_hat 2 in
  exists w',
    kernel_spectral_norm diag_kernel 1 "kernel_sn" w
    = (Ok (Tensor (shape diag_kernel) (map (fun x => x / sigma) W)), w')
    /\ variables w' !! u_key w "kernel_sn" = Some (Tensor [1; 2]%nat u_hat)
    /\ (forall k : string, k <> u_key w "kernel_sn" ->
                           variables w' !! k = variables w !! k)
    /\ summaries w' = summaries w /\ files w' = files w
    /\ cache_writable w' = cache_writable w /\ network w' = network w
    /\ log w' = log w /\ scope w' = scope w.
Proof.
  intros w.
  exact (proj1 (kernel_spectral_norm_frame diag_kernel 1 "kernel_sn" w eq_refl)
           [1; 1; 2]%nat 2%nat eq_refl (Nat.lt_0_succ 1) eq_refl).
Defined.

(* ===================================================================== *)
(** ** kernel_spectral_norm: convergence of the estimate *)

(** ** Scalar facts for the convergence of the iteration *)

Lemma linear_recurrence_bound (x : nat -> R) (B C X : R) (K : nat) :
  0 <= C < 1 ->
  (forall k, (K <= k)%nat -> x (S k) <= B + C * x k) ->
  B / (1 - C) < X ->
  exists N, forall k, (N <= k)%nat -> x k <= X.
Proof.
  intros [HC0 HC1] Hrec HX.
  set (xs := B / (1 - C)) in *.
  assert (HB : B = xs * (1 - C)) by (unfold xs; field; lra).
  set (E := Rmax 0 (x K - xs)).
  assert (HE : 0 <= E) by apply Rmax_l.
  assert (Hdecay : forall j, x (K + j)%nat - xs <= C ^ j * E).
  { induction j as [|j IH].
    - rewrite Nat.add_0_r. cbn [pow]. unfold E.
      pose proof (Rmax_r 0 (x K - xs)). lra.
    - replace (K + S j)%nat with (S (K + j)) by lia.
      pose proof (Hrec (K + j)%nat ltac:(lia)) as H.
      cbn [pow]. nra. }
  destruct (pow_lt_1_zero C) with (y := (X - xs) / (E + 1)) as [j0 Hj0].
  { rewrite Rabs_pos_eq; lra. }
  { apply Rdiv_lt_0_compat; lra. }
  exists (K + j0)%nat. intros k Hk.
  replace k with (K + (k - K))%nat by lia.
  pose proof (Hdecay (k - K)%nat) as Hd.
  pose proof (Hj0 (k - K)%nat ltac:(lia)) as Hp.
  assert (Hpow : 0 <= C ^ (k - K)) by (apply pow_le; exact HC0).
  rewrite Rabs_pos_eq in Hp by exact Hpow.
  assert (Hlt : C ^ (k - K) * (E + 1) < X - xs).
  { apply (Rmult_lt_compat_r (E + 1)) in Hp; [|lra].
    unfold Rdiv in Hp. rewrite Rmult_assoc, Rinv_l in Hp by lra. lra. }
  nra.
Qed.

Section ScalarDynamics.

Variables (eps s c0 : R) (nu : nat -> R).
Hypothesis eps_pos : 0 < eps.
Hypothesis c0_pos : 0 < c0.
Hypothesis nu_pos : forall j, 0 < nu j.
Hypothesis nu_upper : forall j, nu (S j) <= s * nu j.
Hypothesis nu_lower :
  forall s', s' < s ->
             exists K, forall j, (K <= j)%nat -> s' * nu j <= nu (S j).

Local Abbreviation c := (cseq eps c0 nu).
Local Abbreviation a := (aseq eps c0 nu).
Local Abbreviation b := (bseq eps c0 nu).
Local Abbreviation t := (tseq eps c0 nu).
Local Abbreviation sig := (sigseq eps c0 nu).

Lemma s_pos : 0 < s.
Proof.
  pose proof (nu_pos 0) as H0. pose proof (nu_pos 1) as H1.
  pose proof (nu_upper 0) as H. nra.
Qed.

Lemma cseq_pos (k : nat) : 0 < c k.
Proof.
  induction k as [|k IH]; cbn [cseq]; [exact c0_pos|].
  pose proof (nu_pos (2 * k + 1)) as H1. pose proof (nu_pos (2 * k + 2)) as H2.
  assert (Ha : 0 < c k * nu (2 * k + 1)%nat + eps) by nra.
  assert (Hb : 0 < c k * nu (2 * k + 2)%nat / (c k * nu (2 * k + 1)%nat + eps)).
  { apply Rdiv_lt_0_compat; nra. }
  apply Rdiv_lt_0_compat; nra.
Qed.

Lemma aseq_pos (k : nat) : 0 < a k.
Proof.
  unfold aseq. pose proof (cseq_pos k). pose proof (nu_pos (2 * k + 1)). nra.
Qed.

Lemma bseq_pos (k : nat) : 0 < b k.
Proof.
  unfold bseq. pose proof (cseq_pos k). pose proof (nu_pos (2 * k + 2)).
  pose proof (aseq_pos k). apply Rdiv_lt_0_compat; nra.
Qed.

Lemma tseq_pos (k : nat) : 0 < t k.
Proof.
  unfold tseq. pose proof (cseq_pos k). pose proof (nu_pos (2 * k)). nra.
Qed.

(** [b k * (a k + eps) = c k * nu (2k+2)] *)
Lemma bseq_times (k : nat) : b k * (a k + eps) = c k * nu (2 * k + 2)%nat.
Proof.
  unfold bseq. pose proof (aseq_pos k). field. lra.
Qed.

Lemma tseq_succ (k : nat) : t (S k) * (b k + eps) = b k.
Proof.
  unfold tseq. cbn [cseq]. fold (a k). fold (b k).
  replace (2 * S k)%nat with (2 * k + 2)%nat by lia.
  pose proof (aseq_pos k). pose proof (bseq_pos k).
  pose proof (bseq_times k) as Hb.
  transitivity (c k * nu (2 * k + 2)%nat / (a k + eps)).
  - field. lra.
  - rewrite <- Hb. field. lra.
Qed.

Lemma bseq_lt (k : nat) : b k < s.
Proof.
  pose proof (bseq_times k) as Hb. pose proof (aseq_pos k) as Ha.
  pose proof (bseq_pos k) as Hp. pose proof (cseq_pos k) as Hc.
  pose proof (nu_upper (2 * k + 1)) as Hu.
  replace (S (2 * k + 1)) with (2 * k + 2)%nat in Hu by lia.
  unfold aseq in *. pose proof s_pos.
  assert (H1 : b k * (c k * nu (2 * k + 1)%nat + eps)
               <= s * (c k * nu (2 * k + 1)%nat)) by nra.
  nra.
Qed.

Lemma sigseq_bounds (k : nat) : 0 < sig k < s.
Proof.
  pose proof (bseq_pos k) as Hp. pose proof (bseq_lt k) as Hl.
  unfold sigseq. split.
  - apply Rdiv_lt_0_compat; nra.
  - apply Rdiv_lt; nra.
Qed.

Lemma sigseq_lower (k : nat) : b k - eps < sig k.
Proof.
  pose proof (bseq_pos k) as Hp. unfold sigseq.
  apply Rlt_div; nra.
Qed.

(** From the index on which the images grow by at least [s'] per half-step,
    the reciprocal of the norm of the estimate obeys a linear recurrence. *)
Lemma tseq_recurrence (s' : R) (K k : nat) :
  0 < s' ->
  (forall j, (K <= j)%nat -> s' * nu j <= nu (S j)) ->
  (K <= k)%nat ->
  / t (S k) <= (1 + eps / s') + (eps / s') ^ 2 * / t k.
Proof.
  intros Hs' HK Hk.
  pose proof (cseq_pos k) as Hc. pose proof (aseq_pos k) as Ha.
  pose proof (bseq_pos k) as Hb. pose proof (tseq_pos k) as Ht.
  pose proof (tseq_pos (S k)) as Ht1.
  pose proof (tseq_succ k) as Hts. pose proof (bseq_times k) as Hbt.
  pose proof (HK (2 * k)%nat ltac:(lia)) as H0.
  pose proof (HK (2 * k + 1)%nat ltac:(lia)) as H1.
  replace (S (2 * k)) with (2 * k + 1)%nat in H0 by lia.
  replace (S (2 * k + 1)) with (2 * k + 2)%nat in H1 by lia.
  (* a k >= s' * t k  and  b k * (a k + eps) >= s' * a k *)
  assert (Hat : s' * t k <= a k) by (unfold aseq, tseq; nra).
  assert (Hba : s' * a k <= b k * (a k + eps)).
  { rewrite Hbt. unfold aseq. nra. }
  (* /t (S k) = 1 + eps / b k *)
  assert (E1 : / t (S k) = 1 + eps / b k).
  { apply Rmult_eq_reg_l with (t (S k)); [|lra]. rewrite Rinv_r by lra.
    replace (t (S k) * (1 + eps / b k))
      with (t (S k) * (b k + eps) / b k) by (field; lra).
    rewrite Hts. field. lra. }
  rewrite E1.
  (* eps / b k <= eps / s' + eps^2 / (s' * a k) *)
  assert (E2 : / b k <= / s' + eps / (s' * a k)).
  { apply Rmult_le_reg_r with (b k * (s' * a k));
      [apply Rmult_lt_0_compat; [lra | apply Rmult_lt_0_compat; lra]|].
    replace (/ b k * (b k * (s' * a k))) with (s' * a k) by (field; lra).
    replace ((/ s' + eps / (s' * a k)) * (b k * (s' * a k)))
      with (b k * (a k + eps)) by (field; split; lra).
    exact Hba. }
  assert (E3 : / a k <= / t k / s').
  { apply Rmult_le_reg_r with (a k * (t k * s'));
      [apply Rmult_lt_0_compat; [lra | apply Rmult_lt_0_compat; lra]|].
    replace (/ a k * (a k * (t k * s'))) with (t k * s') by (field; lra).
    replace (/ t k / s' * (a k * (t k * s'))) with (a k) by (field; split; lra).
    lra. }
  assert (E4 : eps / (s' * a k) = eps / s' * / a k) by (field; split; lra).
  assert (E5 : 0 < eps / s') by (apply Rdiv_lt_0_compat; lra).
  assert (E6 : eps / b k = eps * / b k) by reflexivity.
  assert (E7 : (eps / s') ^ 2 * / t k = eps / s' * (eps / s' * / t k))
    by (cbn [pow]; lra).
  assert (E8 : eps / s' * / a k <= eps / s' * (/ t k / s')).
  { apply Rmult_le_compat_l; lra. }
  assert (E9 : eps / s' * (/ t k / s') = / s' * (eps / s' * / t k))
    by (field; split; lra).
  assert (E10 : eps * / s' = eps / s') by reflexivity.
  nra.
Qed.

(** The estimate of the singular value ends within any tolerance above
    [2 * eps] of [s]. *)
Lemma sigseq_converges (tol : R) :
  2 * eps < tol ->
  exists N, forall k, (N <= k)%nat -> Rabs (sig k - s) < tol.
Proof.
  intros Htol.
  assert (Habs : forall k, s - tol < sig k -> Rabs (sig k - s) < tol).
  { intros k H. pose proof (sigseq_bounds k) as [_ Hu].
    rewrite Rabs_left; lra. }
  destruct (Rlt_le_dec s tol) as [Hsmall|Hbig].
  { exists 0%nat. intros k _. apply Habs.
    pose proof (sigseq_bounds k). lra. }
  set (eta := (tol - 2 * eps) / 2).
  assert (Heta : 0 < eta) by (unfold eta; lra).
  set (s' := s - eta).
  assert (Hs' : 2 * eps + eta <= s') by (unfold s', eta in *; lra).
  assert (Hs'0 : 0 < s') by lra.
  destruct (nu_lower s') as [K HK]; [unfold s'; lra|].
  (* a lower bound on [a k] that suffices, and a larger one that is reached *)
  set (A0 := eps * s' / (eps + eta) - eps).
  assert (HA0e : (A0 + eps) * (eps + eta) = eps * s')
    by (unfold A0; field; lra).
  assert (HA0 : A0 < s' - eps) by nra.
  assert (HA0p : 0 < A0) by nra.
  set (A1 := (A0 + (s' - eps)) / 2).
  assert (HA1 : A0 < A1 < s' - eps) by (unfold A1; lra).
  (* the recurrence and its limit *)
  set (B := 1 + eps / s'). set (C := (eps / s') ^ 2).
  assert (Hq : 0 < eps / s' <= 1 / 2).
  { split; [apply Rdiv_lt_0_compat; lra|].
    apply Rmult_le_reg_r with s'; [lra|].
    unfold Rdiv. rewrite Rmult_assoc, Rinv_l by lra. lra. }
  assert (HC : 0 <= C < 1) by (unfold C; cbn [pow]; nra).
  assert (Hlim : B / (1 - C) = s' / (s' - eps)).
  { unfold B, C. field. repeat split; try lra. nra. }
  assert (HX : B / (1 - C) < s' / A1).
  { rewrite Hlim. unfold Rdiv. apply Rmult_lt_compat_l; [lra|].
    apply Rinv_lt_contravar; [|lra].
    apply Rmult_lt_0_compat; lra. }
  destruct (linear_recurrence_bound (fun k => / t k) B C (s' / A1) K HC)
    as [N HN].
  { intros k Hk. apply (tseq_recurrence s' K k Hs'0 HK Hk). }
  { exact HX. }
  exists (Nat.max N K). intros k Hk. apply Habs.
  pose proof (HN k ltac:(lia)) as Hx. cbv beta in Hx.
  pose proof (cseq_pos k) as Hc. pose proof (aseq_pos k) as Ha.
  pose proof (bseq_pos k) as Hb. pose proof (tseq_pos k) as Ht.
  pose proof (bseq_times k) as Hbt.
  pose proof (HK (2 * k)%nat ltac:(lia)) as H0.
  pose proof (HK (2 * k + 1)%nat ltac:(lia)) as H1.
  replace (S (2 * k)) with (2 * k + 1)%nat in H0 by lia.
  replace (S (2 * k + 1)) with (2 * k + 2)%nat in H1 by lia.
  assert (Hat : s' * t k <= a k) by (unfold aseq, tseq; nra).
  assert (Hba : s' * a k <= b k * (a k + eps)).
  { rewrite Hbt. unfold aseq. nra. }
  (* t k >= A1 / s', hence a k >= A1 > A0 *)
  assert (HtA : A1 <= s' * t k).
  { apply Rmult_le_compat_r with (r := t k * A1) in Hx; [|nra].
    replace (/ t k * (t k * A1)) with A1 in Hx by (field; lra).
    replace (s' / A1 * (t k * A1)) with (s' * t k) in Hx by (field; lra).
    exact Hx. }
  assert (HaA : A0 < a k) by lra.
  (* b k > s' - eps - eta *)
  assert (Hb1 : s' - eps - eta < b k).
  { assert (H2 : eps * s' < (eps + eta) * (a k + eps)) by nra.
    assert (H3 : (s' - eps - eta) * (a k + eps) < b k * (a k + eps)) by nra.
    apply Rmult_lt_reg_r with (a k + eps); lra. }
  pose proof (sigseq_lower k) as Hsl.
  unfold s', eta in *. lra.
Qed.

End ScalarDynamics.

Lemma Rsum_scale (A : Type) (c : R) (f : A -> R) (l : list A) :
  Rsum (map (fun a => c * f a) l) = c * Rsum (map f l).
Proof.
  induction l as [|a l IH]; cbn [map Rsum fold_right]; [lra|].
  change (fold_right Rplus 0 (map (fun a => c * f a) l))
    with (Rsum (map (fun a => c * f a) l)).
  change (fold_right Rplus 0 (map f l)) with (Rsum (map f l)).
  rewrite IH. lra.
Qed.

Lemma nth_vscale (c : R) (x : list R) (j : nat) :
  nth j (vscale c x) 0 = c * nth j x 0.
Proof.
  unfold vscale. rewrite <- (Rmult_0_r c) at 1. apply map_nth.
Qed.

Lemma vscale_vscale (a b : R) (x : list R) :
  vscale a (vscale b x) = vscale (a * b) x.
Proof.
  unfold vscale. rewrite map_map. apply map_ext. intros v. lra.
Qed.

Lemma vscale_1 (x : list R) : vscale 1 x = x.
Proof.
  unfold vscale. rewrite <- (map_id x) at 2. apply map_ext. intros v. lra.
Qed.

Lemma vec_mat_t_scale (c : R) (x W : list R) (m n : nat) :
  vec_mat_t (vscale c x) W m n = vscale c (vec_mat_t x W m n).
Proof.
  unfold vec_mat_t, vscale at 2. rewrite map_map. apply map_ext. intros i.
  rewrite <- Rsum_scale. apply Rsum_map_ext. intros j _.
  rewrite nth_vscale. lra.
Qed.

Lemma vec_mat_scale (c : R) (x W : list R) (m n : nat) :
  vec_mat (vscale c x) W m n = vscale c (vec_mat x W m n).
Proof.
  unfold vec_mat, vscale at 2. rewrite map_map. apply map_ext. intros j.
  rewrite <- Rsum_scale. apply Rsum_map_ext. intros i _.
  rewrite nth_vscale. lra.
Qed.

Lemma sum_squares_nonneg (x : list R) : 0 <= Rsum (map (fun v => v ^ 2) x).
Proof.
  apply Rsum_nonneg. apply List.Forall_forall. intros v Hv.
  apply in_map_iff in Hv. destruct Hv as (y & <- & _). apply pow2_ge_0.
Qed.

Lemma norm2_nonneg (x : list R) : 0 <= norm2 x.
Proof. apply sqrt_pos. Qed.

Lemma norm2_sqr (x : list R) :
  norm2 x * norm2 x = Rsum (map (fun v => v ^ 2) x).
Proof. apply sqrt_sqrt, sum_squares_nonneg. Qed.

Lemma norm2_scale (c : R) (x : list R) :
  0 <= c -> norm2 (vscale c x) = c * norm2 x.
Proof.
  intros Hc. unfold norm2, vscale. rewrite map_map.
  replace (Rsum (map (fun v => (c * v) ^ 2) x))
    with ((c * c) * Rsum (map (fun v => v ^ 2) x)).
  - rewrite sqrt_mult_alt by nra. rewrite sqrt_square by exact Hc.
    reflexivity.
  - rewrite <- Rsum_scale. apply Rsum_map_ext. intros v _. lra.
Qed.

Lemma normalize_scale (c : R) (x : list R) :
  0 <= c ->
  normalize (vscale c x) = vscale (c / (c * norm2 x + default_epsilon)) x.
Proof.
  intros Hc. unfold normalize. rewrite (norm2_scale c x Hc).
  unfold vscale. rewrite map_map. apply map_ext. intros v.
  unfold Rdiv. lra.
Qed.

Lemma dot_sum_squares (x : list R) (n : nat) :
  length x = n -> dot x x n = Rsum (map (fun v => v ^ 2) x).
Proof.
  intros <-. unfold dot.
  transitivity (Rsum (map (fun v => v ^ 2)
                        (map (fun k => nth k x 0) (seq 0 (length x))))).
  - rewrite map_map. apply Rsum_map_ext. intros j _. lra.
  - rewrite map_nth_seq. reflexivity.
Qed.

Lemma dot_scale (a b : R) (x y : list R) (n : nat) :
  dot (vscale a x) (vscale b y) n = a * b * dot x y n.
Proof.
  unfold dot. rewrite <- Rsum_scale. apply Rsum_map_ext. intros j _.
  rewrite !nth_vscale. lra.
Qed.

Lemma length_vec_mat (v W : list R) (m n : nat) :
  length (vec_mat v W m n) = n.
Proof. unfold vec_mat. rewrite length_map, length_seq. reflexivity. Qed.

Lemma length_vec_mat_t (u W : list R) (m n : nat) :
  length (vec_mat_t u W m n) = m.
Proof. unfold vec_mat_t. rewrite length_map, length_seq. reflexivity. Qed.

(** One step from a non-negative multiple of a vector [g]. *)
Lemma step_scaled (W g : list R) (m n : nat) (c : R) (x1 x2 : list R)
  (a b : R) :
  0 <= c ->
  x1 = vec_mat_t g W m n ->
  x2 = vec_mat x1 W m n ->
  a = c * norm2 x1 ->
  b = c * norm2 x2 / (a + default_epsilon) ->
  step W (vscale c g) m n
  = (vscale (c / ((a + default_epsilon) * (b + default_epsilon))) x2,
     vscale (c / (a + default_epsilon)) x1,
     b * b / (b + default_epsilon)).
Proof.
  intros Hc Hx1 Hx2 Ha Hb.
  pose proof default_epsilon_pos as He.
  pose proof (norm2_nonneg x1) as H1. pose proof (norm2_nonneg x2) as H2.
  assert (Ha0 : 0 <= a) by (rewrite Ha; nra).
  assert (Hc' : 0 <= c / (a + default_epsilon)).
  { unfold Rdiv. apply Rmult_le_pos; [exact Hc|].
    left. apply Rinv_0_lt_compat. lra. }
  assert (Hb' : c / (a + default_epsilon) * norm2 x2 = b)
    by (rewrite Hb; field; lra).
  assert (Hb0 : 0 <= b) by (rewrite <- Hb'; nra).
  unfold step.
  rewrite vec_mat_t_scale, <- Hx1.
  rewrite (normalize_scale c x1 Hc), <- Ha.
  rewrite vec_mat_scale, <- Hx2.
  rewrite (normalize_scale _ x2 Hc').
  set (z := c / (a + default_epsilon) * norm2 x2).
  assert (Hz : z = b) by exact Hb'. clearbody z. subst z.
  f_equal; [f_equal|].
  - f_equal. field. split; lra.
  - assert (Hlen : length x2 = n) by (rewrite Hx2; apply length_vec_mat).
    rewrite dot_scale, (dot_sum_squares x2 n Hlen).
    rewrite <- norm2_sqr.
    transitivity ((c / (a + default_epsilon) * norm2 x2)
                  * (c / (a + default_epsilon) * norm2 x2)
                  / (b + default_epsilon)).
    + field. split; lra.
    + f_equal. f_equal; exact Hb'.
Qed.

Lemma cseq_pos_nonneg (eps c0 : R) (nu : nat -> R) (k : nat) :
  0 < eps -> 0 < c0 -> (forall j, 0 <= nu j) -> 0 < cseq eps c0 nu k.
Proof.
  intros He Hc0 Hnu. induction k as [|k IH]; cbn [cseq]; [exact Hc0|].
  pose proof (Hnu (2 * k + 1)%nat) as H1. pose proof (Hnu (2 * k + 2)%nat) as H2.
  set (c := cseq eps c0 nu k) in *.
  assert (Ha : 0 < c * nu (2 * k + 1)%nat + eps) by nra.
  assert (Hb : 0 <= c * nu (2 * k + 2)%nat / (c * nu (2 * k + 1)%nat + eps)).
  { unfold Rdiv. apply Rmult_le_pos; [nra|].
    left. apply Rinv_0_lt_compat. lra. }
  apply Rdiv_lt_0_compat; [exact IH|].
  apply Rmult_lt_0_compat; lra.
Qed.

Lemma image_succ_even (W u : list R) (m n k : nat) :
  image W u m n (2 * k + 1) = vec_mat_t (image W u m n (2 * k)) W m n.
Proof.
  replace (2 * k + 1)%nat with (S (2 * k)) by lia. cbn [image].
  replace (Nat.even (2 * k)) with true; [reflexivity|].
  symmetry. apply Nat.even_spec. exists k. lia.
Qed.

Lemma image_succ_odd (W u : list R) (m n k : nat) :
  image W u m n (2 * k + 2) = vec_mat (image W u m n (2 * k + 1)) W m n.
Proof.
  replace (2 * k + 2)%nat with (S (2 * k + 1)) by lia. cbn [image].
  replace (Nat.even (2 * k + 1)) with false; [reflexivity|].
  symmetry. rewrite <- Nat.negb_odd. apply negb_false_iff.
  apply Nat.odd_spec. exists k. lia.
Qed.

(** The [k]-th estimate is a positive multiple of the [2k]-th image, and the
    [sigma] computed from it is the scalar [sigseq]. *)
Lemma iterate_scaled (W u : list R) (m n k : nat) :
  iterate W u m n k
  = vscale (cseq default_epsilon 1 (nu_of W u m n) k) (image W u m n (2 * k))
  /\ sigma_at W u m n k = sigseq default_epsilon 1 (nu_of W u m n) k.
Proof.
  pose proof default_epsilon_pos as He.
  assert (Hnu : forall j, 0 <= nu_of W u m n j)
    by (intros j; apply norm2_nonneg).
  assert (Hstep : forall k,
             iterate W u m n k
             = vscale (cseq default_epsilon 1 (nu_of W u m n) k)
                      (image W u m n (2 * k)) ->
             step W (iterate W u m n k) m n
             = (vscale (cseq default_epsilon 1 (nu_of W u m n) (S k))
                       (image W u m n (2 * S k)),
                vscale (cseq default_epsilon 1 (nu_of W u m n) k
                        / (aseq default_epsilon 1 (nu_of W u m n) k
                           + default_epsilon))
                       (image W u m n (2 * k + 1)),
                sigseq default_epsilon 1 (nu_of W u m n) k)).
  { intros j Hj. rewrite Hj.
    pose proof (cseq_pos_nonneg default_epsilon 1 (nu_of W u m n) j He
                  Rlt_0_1 Hnu) as Hc.
    replace (2 * S j)%nat with (2 * j + 2)%nat by lia.
    apply step_scaled.
    - lra.
    - apply image_succ_even.
    - apply image_succ_odd.
    - reflexivity.
    - reflexivity. }
  assert (Hit : forall k,
             iterate W u m n k
             = vscale (cseq default_epsilon 1 (nu_of W u m n) k)
                      (image W u m n (2 * k))).
  { induction k0 as [|j IH].
    - cbn [iterate cseq image Nat.mul]. symmetry. apply vscale_1.
    - cbn [iterate]. rewrite (Hstep j IH). reflexivity. }
  split; [apply Hit|].
  unfold sigma_at. rewrite (Hstep k (Hit k)). reflexivity.
Qed.

Lemma Rsum_add (A : Type) (f g : A -> R) (l : list A) :
  Rsum (map (fun a => f a + g a) l) = Rsum (map f l) + Rsum (map g l).
Proof.
  induction l as [|a l IH]; cbn [map Rsum fold_right]; [lra|].
  change (fold_right Rplus 0 (map (fun a => f a + g a) l))
    with (Rsum (map (fun a => f a + g a) l)).
  change (fold_right Rplus 0 (map f l)) with (Rsum (map f l)).
  change (fold_right Rplus 0 (map g l)) with (Rsum (map g l)).
  rewrite IH. lra.
Qed.

Lemma Rsum_const_zero (A : Type) (l : list A) :
  Rsum (map (fun _ => 0) l) = 0.
Proof. apply Rsum_map_zero. reflexivity. Qed.

Lemma Rsum_swap (A B : Type) (f : A -> B -> R) (la : list A) (lb : list B) :
  Rsum (map (fun a => Rsum (map (fun b => f a b) lb)) la)
  = Rsum (map (fun b => Rsum (map (fun a => f a b) la)) lb).
Proof.
  induction la as [|a la IH].
  - cbn [map Rsum fold_right]. symmetry. apply Rsum_const_zero.
  - cbn [map]. change (Rsum (?x :: ?l)) with (x + Rsum l).
    rewrite IH. rewrite <- Rsum_add. apply Rsum_map_ext. intros b _.
    reflexivity.
Qed.

Lemma nth_vadd (x y : list R) (n j : nat) :
  (j < n)%nat -> nth j (vadd x y n) 0 = nth j x 0 + nth j y 0.
Proof.
  intros Hj. unfold vadd. rewrite nth_map_seq by exact Hj. reflexivity.
Qed.

Lemma nth_repeat_zero (n j : nat) : nth j (repeat 0 n) 0 = 0.
Proof.
  revert j. induction n as [|n IH]; intros [|j]; cbn; auto.
Qed.

Lemma nth_vec_mat_t (x W : list R) (m n i : nat) :
  (i < m)%nat ->
  nth i (vec_mat_t x W m n) 0
  = Rsum (map (fun j => nth j x 0 * nth (i * n + j) W 0) (seq 0 n)).
Proof.
  intros Hi. unfold vec_mat_t. rewrite nth_map_seq by exact Hi. reflexivity.
Qed.

Lemma nth_vec_mat (v W : list R) (m n j : nat) :
  (j < n)%nat ->
  nth j (vec_mat v W m n) 0
  = Rsum (map (fun i => nth i v 0 * nth (i * n + j) W 0) (seq 0 m)).
Proof.
  intros Hj. unfold vec_mat. rewrite nth_map_seq by exact Hj. reflexivity.
Qed.

(** The matrix and its transpose are adjoint for the dot product. *)
Lemma dot_adjoint (x y W : list R) (m n : nat) :
  dot (vec_mat_t x W m n) y m = dot x (vec_mat y W m n) n.
Proof.
  unfold dot.
  transitivity (Rsum (map (fun i => Rsum (map (fun j =>
                  nth j x 0 * nth (i * n + j) W 0 * nth i y 0) (seq 0 n)))
                  (seq 0 m))).
  - apply Rsum_map_ext. intros i Hi. apply in_seq in Hi.
    rewrite nth_vec_mat_t by lia.
    rewrite Rmult_comm, <- Rsum_scale. apply Rsum_map_ext. intros j _. lra.
  - rewrite Rsum_swap. apply Rsum_map_ext. intros j Hj. apply in_seq in Hj.
    rewrite nth_vec_mat by lia.
    rewrite <- Rsum_scale. apply Rsum_map_ext. intros i _. lra.
Qed.

Lemma norm2_vec_mat_t_sqr (x W : list R) (m n : nat) :
  norm2 (vec_mat_t x W m n) * norm2 (vec_mat_t x W m n)
  = dot x (gram W x m n) n.
Proof.
  rewrite norm2_sqr, <- (dot_sum_squares _ m) by apply length_vec_mat_t.
  apply dot_adjoint.
Qed.

Lemma norm2_sqr_dot (x : list R) (n : nat) :
  length x = n -> norm2 x * norm2 x = dot x x n.
Proof. intros H. rewrite norm2_sqr, (dot_sum_squares x n H). reflexivity. Qed.

(** Linearity *)
Lemma vec_mat_t_add (x y W : list R) (m n : nat) :
  vec_mat_t (vadd x y n) W m n
  = vadd (vec_mat_t x W m n) (vec_mat_t y W m n) m.
Proof.
  unfold vadd at 2. unfold vec_mat_t at 1.
  apply map_ext_in. intros i Hi. apply in_seq in Hi.
  rewrite !nth_vec_mat_t by lia. rewrite <- Rsum_add.
  apply Rsum_map_ext. intros j Hj. apply in_seq in Hj.
  rewrite nth_vadd by lia. lra.
Qed.

Lemma vec_mat_add (x y W : list R) (m n : nat) :
  vec_mat (vadd x y m) W m n = vadd (vec_mat x W m n) (vec_mat y W m n) n.
Proof.
  unfold vadd at 2. unfold vec_mat at 1.
  apply map_ext_in. intros j Hj. apply in_seq in Hj.
  rewrite !nth_vec_mat by lia. rewrite <- Rsum_add.
  apply Rsum_map_ext. intros i Hi. apply in_seq in Hi.
  rewrite nth_vadd by lia. lra.
Qed.

Lemma gram_add (W x y : list R) (m n : nat) :
  gram W (vadd x y n) m n = vadd (gram W x m n) (gram W y m n) n.
Proof. unfold gram. rewrite vec_mat_t_add, vec_mat_add. reflexivity. Qed.

Lemma gram_scale (W x : list R) (c : R) (m n : nat) :
  gram W (vscale c x) m n = vscale c (gram W x m n).
Proof. unfold gram. rewrite vec_mat_t_scale, vec_mat_scale. reflexivity. Qed.

Lemma map_zero_seq (f : nat -> R) (start n : nat) :
  (forall i, f i = 0) -> map f (seq start n) = repeat 0 n.
Proof.
  intros Hf. revert start. induction n as [|n IH]; intros start;
    cbn [seq map repeat]; [reflexivity|].
  rewrite Hf, IH. reflexivity.
Qed.

Lemma gram_zero (W : list R) (m n : nat) :
  gram W (repeat 0 n) m n = repeat 0 n.
Proof.
  unfold gram, vec_mat.
  assert (Hz : vec_mat_t (repeat 0 n) W m n = repeat 0 m).
  { unfold vec_mat_t. apply map_zero_seq. intros i.
    apply Rsum_map_zero. intros j _. rewrite nth_repeat_zero. lra. }
  rewrite Hz. apply map_zero_seq. intros j.
  apply Rsum_map_zero. intros i _. rewrite nth_repeat_zero. lra.
Qed.

(** ** Expansion of the start vector along right-singular directions *)

Lemma length_vsum (n : nat) (xs : list (list R)) : length (vsum n xs) = n.
Proof.
  destruct xs as [|x xs]; cbn [vsum].
  - apply repeat_length.
  - unfold vadd. rewrite length_map, length_seq. reflexivity.
Qed.

Lemma gram_vsum (W : list R) (m n : nat) (xs : list (list R)) :
  gram W (vsum n xs) m n = vsum n (map (fun x => gram W x m n) xs).
Proof.
  induction xs as [|x xs IH]; cbn [vsum map].
  - apply gram_zero.
  - rewrite gram_add, IH. reflexivity.
Qed.

Lemma weighted_one (comps : list (R * list R)) :
  weighted (fun _ => 1) comps = map snd comps.
Proof.
  unfold weighted. apply map_ext. intros c. apply vscale_1.
Qed.

Lemma image_even_expansion (W u : list R) (m n : nat)
  (comps : list (R * list R)) (k : nat) :
  singular_expansion W u m n comps ->
  image W u m n (2 * k)
  = vsum n (weighted (fun sv => (sv * sv) ^ k) comps).
Proof.
  intros [Hsum Heig _ _]. induction k as [|k IH].
  - cbn [Nat.mul image]. rewrite Hsum.
    rewrite <- (weighted_one comps). reflexivity.
  - replace (2 * S k)%nat with (2 * k + 2)%nat by lia.
    rewrite image_succ_odd, image_succ_even. fold (gram W (image W u m n (2 * k)) m n).
    rewrite IH, gram_vsum. f_equal. unfold weighted. rewrite map_map.
    apply map_ext_in. intros c Hc.
    rewrite List.Forall_forall in Heig. specialize (Heig c Hc).
    cbv beta in Heig. rewrite gram_scale, Heig, vscale_vscale.
    f_equal. cbn [pow]. lra.
Qed.

(** Dot products of sums *)
Lemma dot_comm (x y : list R) (n : nat) : dot x y n = dot y x n.
Proof. unfold dot. apply Rsum_map_ext. intros j _. lra. Qed.

Lemma dot_vadd_l (x X y : list R) (n : nat) :
  dot (vadd x X n) y n = dot x y n + dot X y n.
Proof.
  unfold dot. rewrite <- Rsum_add. apply Rsum_map_ext. intros j Hj.
  apply in_seq in Hj. rewrite nth_vadd by lia. lra.
Qed.

Lemma dot_vadd_r (x y Y : list R) (n : nat) :
  dot x (vadd y Y n) n = dot x y n + dot x Y n.
Proof. rewrite dot_comm, dot_vadd_l, !(dot_comm x). reflexivity. Qed.

Lemma dot_zero_r (x : list R) (n : nat) : dot x (repeat 0 n) n = 0.
Proof.
  unfold dot. apply Rsum_map_zero. intros j _. rewrite nth_repeat_zero. lra.
Qed.

Lemma dot_vsum_orth (x : list R) (n : nat) (g : R -> R)
  (comps : list (R * list R)) :
  Forall (fun c => dot x (snd c) n = 0) comps ->
  dot x (vsum n (weighted g comps)) n = 0.
Proof.
  induction 1 as [|c comps Hc _ IH]; cbn [weighted map vsum].
  - apply dot_zero_r.
  - fold (weighted g comps). rewrite dot_vadd_r, IH.
    rewrite <- (vscale_1 x), dot_scale, Hc. lra.
Qed.

Lemma dot_expansion (n : nat) (f g : R -> R) (comps : list (R * list R)) :
  ForallOrdPairs (fun c1 c2 => dot (snd c1) (snd c2) n = 0) comps ->
  dot (vsum n (weighted f comps)) (vsum n (weighted g comps)) n
  = Rsum (map (fun c => f (fst c) * g (fst c) * dot (snd c) (snd c) n) comps).
Proof.
  induction 1 as [|c comps Hc _ IH]; cbn [weighted map vsum].
  - apply dot_zero_r.
  - fold (weighted f comps). fold (weighted g comps).
    change (Rsum (?x :: ?l)) with (x + Rsum l).
    rewrite dot_vadd_l, !dot_vadd_r, IH.
    assert (H1 : dot (vscale (f (fst c)) (snd c)) (vsum n (weighted g comps)) n
                 = 0).
    { apply dot_vsum_orth. revert Hc. apply List.Forall_impl. intros c' Hc'.
      rewrite <- (vscale_1 (snd c')), dot_scale, Hc'. lra. }
    assert (H2 : dot (vsum n (weighted f comps)) (vscale (g (fst c)) (snd c)) n
                 = 0).
    { rewrite dot_comm. apply dot_vsum_orth. revert Hc. apply List.Forall_impl.
      intros c' Hc'. rewrite <- (vscale_1 (snd c')), dot_scale, Hc'. lra. }
    rewrite H1, H2, dot_scale. lra.
Qed.

(** The squared norms of the images are the moments of the expansion. *)
Lemma nu_sqr_moment (W u : list R) (m n : nat) (comps : list (R * list R))
  (j : nat) :
  singular_expansion W u m n comps ->
  nu_of W u m n j * nu_of W u m n j = moment n comps j.
Proof.
  intros Hexp. pose proof Hexp as [Hsum Heig Horth _].
  unfold nu_of, moment.
  destruct (Nat.Even_or_Odd j) as [[k ->]|[k ->]].
  - rewrite (norm2_sqr_dot _ n).
    + rewrite (image_even_expansion W u m n comps k Hexp).
      rewrite (dot_expansion n _ _ comps Horth).
      apply Rsum_map_ext. intros c _. rewrite <- pow_add.
      replace (k + k)%nat with (2 * k)%nat by lia. reflexivity.
    + rewrite (image_even_expansion W u m n comps k Hexp). apply length_vsum.
  - rewrite image_succ_even, norm2_vec_mat_t_sqr.
    unfold gram. rewrite <- image_succ_even, <- image_succ_odd.
    replace (2 * k + 2)%nat with (2 * S k)%nat by lia.
    rewrite !(image_even_expansion W u m n comps _ Hexp).
    rewrite (dot_expansion n _ _ comps Horth).
    apply Rsum_map_ext. intros c _. rewrite <- pow_add.
    replace (k + S k)%nat with (2 * k + 1)%nat by lia. reflexivity.
Qed.

(** ** Norms whose squares are dominated by a top moment *)

Lemma sqr_le_reg (x y : R) : 0 <= x -> 0 <= y -> x * x <= y * y -> x <= y.
Proof. intros Hx Hy H. nra. Qed.

Section MomentAnalysis.

Variables (s s2 P : R) (r nu : nat -> R).
Hypothesis gap : 0 <= s2 < s.
Hypothesis P_pos : 0 < P.
Hypothesis r_nonneg : forall j, 0 <= r j.
Hypothesis r_contracts : forall j, r (S j) <= s2 * s2 * r j.
Hypothesis nu_nonneg : forall j, 0 <= nu j.
Hypothesis nu_sqr : forall j, nu j * nu j = (s * s) ^ j * P + r j.

Lemma top_pow_pos (j : nat) : 0 < (s * s) ^ j.
Proof. pose proof gap. apply pow_lt. nra. Qed.

Lemma moment_nu_pos (j : nat) : 0 < nu j.
Proof.
  pose proof (nu_nonneg j) as H0. pose proof (nu_sqr j) as H1.
  pose proof (top_pow_pos j) as H2. pose proof (r_nonneg j) as H3.
  assert (H4 : 0 < nu j * nu j) by nra.
  destruct H0 as [H0|H0]; [exact H0|]. rewrite <- H0 in H4. lra.
Qed.

Lemma moment_nu_upper (j : nat) : nu (S j) <= s * nu j.
Proof.
  pose proof (nu_nonneg j) as H0. pose proof (nu_nonneg (S j)) as H0'.
  pose proof (nu_sqr j) as H1. pose proof (nu_sqr (S j)) as H1'.
  pose proof (top_pow_pos j) as H2. pose proof (r_nonneg j) as H3.
  pose proof (r_contracts j) as H4. cbn [pow] in H1'.
  pose proof gap as Hgap.
  apply sqr_le_reg; [exact H0' | apply Rmult_le_pos; lra |].
  replace (s * nu j * (s * nu j)) with (s * s * (nu j * nu j)) by ring.
  rewrite H1, H1'.
  assert (H5 : s2 * s2 * r j <= s * s * r j).
  { apply Rmult_le_compat_r; [exact H3 | nra]. }
  lra.
Qed.

Lemma r_decay (j : nat) : r j <= (s2 * s2) ^ j * r 0%nat.
Proof.
  induction j as [|j IH]; cbn [pow]; [lra|].
  pose proof (r_contracts j) as H. pose proof gap as Hgap.
  pose proof (r_nonneg j) as Hr.
  assert (H2 : 0 <= s2 * s2) by nra. nra.
Qed.

Lemma moment_nu_lower (s' : R) :
  s' < s -> exists K, forall j, (K <= j)%nat -> s' * nu j <= nu (S j).
Proof.
  intros Hs'. pose proof gap as Hgap.
  destruct (Rle_lt_dec s' 0) as [Hneg|Hpos].
  { exists 0%nat. intros j _. pose proof (nu_nonneg j).
    pose proof (nu_nonneg (S j)). nra. }
  assert (Hs : 0 < s) by lra.
  set (x := s2 * s2 / (s * s)).
  assert (Hx : 0 <= x < 1).
  { unfold x. split.
    - unfold Rdiv. apply Rmult_le_pos; [nra|].
      left. apply Rinv_0_lt_compat. nra.
    - apply Rdiv_lt; nra. }
  set (y := P * (s * s - s' * s') / (s' * s' * (r 0%nat + 1))).
  pose proof (r_nonneg 0) as Hr0. pose proof P_pos as HP.
  assert (Hdiff : 0 < s * s - s' * s') by nra.
  assert (Hs'2 : 0 < s' * s') by nra.
  assert (Hy : 0 < y).
  { unfold y. apply Rdiv_lt_0_compat.
    - apply Rmult_lt_0_compat; lra.
    - apply Rmult_lt_0_compat; lra. }
  destruct (pow_lt_1_zero x) with (y := y) as [K HK].
  { rewrite Rabs_pos_eq; lra. }
  { exact Hy. }
  exists K. intros j Hj.
  pose proof (nu_nonneg j) as H0. pose proof (nu_nonneg (S j)) as H0'.
  pose proof (nu_sqr j) as H1. pose proof (nu_sqr (S j)) as H1'.
  pose proof (top_pow_pos j) as H2. pose proof (r_nonneg j) as H3.
  pose proof (r_nonneg (S j)) as H3'. pose proof (r_decay j) as H4.
  cbn [pow] in H1'.
  specialize (HK j Hj). rewrite Rabs_pos_eq in HK by (apply pow_le; lra).
  assert (Hpow : (s2 * s2) ^ j = x ^ j * (s * s) ^ j).
  { unfold x. rewrite <- Rpow_mult_distr. f_equal. field. lra. }
  assert (Hxj : 0 <= x ^ j) by (apply pow_le; lra).
  (* s'^2 r_j <= P (s^2 - s'^2) (s^2)^j *)
  assert (Hkey : s' * s' * r j <= P * (s * s - s' * s') * (s * s) ^ j).
  { assert (Hy1 : y * (s' * s' * (r 0%nat + 1)) = P * (s * s - s' * s')).
    { unfold y. field. split; lra. }
    assert (Ha : s' * s' * r j <= s' * s' * (x ^ j * (s * s) ^ j * r 0%nat)).
    { rewrite <- Hpow. apply Rmult_le_compat_l; [lra | exact H4]. }
    assert (Hb : x ^ j * (r 0%nat) <= y * (r 0%nat + 1)).
    { assert (Hb1 : x ^ j * r 0%nat <= y * r 0%nat)
        by (apply Rmult_le_compat_r; lra).
      lra. }
    assert (Hc : s' * s' * (x ^ j * (s * s) ^ j * r 0%nat)
                 = (s' * s' * (s * s) ^ j) * (x ^ j * r 0%nat)) by ring.
    assert (Hd : (s' * s' * (s * s) ^ j) * (x ^ j * r 0%nat)
                 <= (s' * s' * (s * s) ^ j) * (y * (r 0%nat + 1))).
    { apply Rmult_le_compat_l; [|exact Hb].
      apply Rmult_le_pos; lra. }
    assert (He : (s' * s' * (s * s) ^ j) * (y * (r 0%nat + 1))
                 = (y * (s' * s' * (r 0%nat + 1))) * (s * s) ^ j) by ring.
    rewrite Hy1 in He. lra. }
  apply sqr_le_reg; [apply Rmult_le_pos; lra | exact H0' |].
  replace (s' * nu j * (s' * nu j)) with (s' * s' * (nu j * nu j)) by ring.
  rewrite H1, H1'. lra.
Qed.

End MomentAnalysis.

Lemma dot_self_nonneg (x : list R) (n : nat) : 0 <= dot x x n.
Proof.
  unfold dot. apply Rsum_nonneg. apply List.Forall_forall. intros v Hv.
  apply in_map_iff in Hv. destruct Hv as (j & <- & _). nra.
Qed.

Lemma moment_nonneg (n : nat) (comps : list (R * list R)) (j : nat) :
  0 <= moment n comps j.
Proof.
  unfold moment. apply Rsum_nonneg. apply List.Forall_forall. intros v Hv.
  apply in_map_iff in Hv. destruct Hv as (c & <- & _).
  apply Rmult_le_pos; [|apply dot_self_nonneg].
  apply pow_le. nra.
Qed.

Lemma moment_contracts (n : nat) (comps : list (R * list R)) (s2 : R)
  (j : nat) :
  Forall (fun c => 0 <= fst c) comps -> Forall (fun c => fst c <= s2) comps ->
  moment n comps (S j) <= s2 * s2 * moment n comps j.
Proof.
  intros Hnn Hle. unfold moment. rewrite <- Rsum_scale.
  induction comps as [|c comps IH]; cbn [map]; [cbn; lra|].
  change (Rsum (?x :: ?l)) with (x + Rsum l).
  inversion Hnn as [|? ? Hc0 Hnn']; subst.
  inversion Hle as [|? ? Hc1 Hle']; subst.
  specialize (IH Hnn' Hle').
  apply Rplus_le_compat; [|exact IH].
  pose proof (dot_self_nonneg (snd c) n) as HQ.
  assert (Hp : 0 <= (fst c * fst c) ^ j) by (apply pow_le; nra).
  cbn [pow].
  assert (Hsq : fst c * fst c <= s2 * s2) by nra.
  assert (Hpq : 0 <= (fst c * fst c) ^ j * dot (snd c) (snd c) n)
    by (apply Rmult_le_pos; assumption).
  replace (fst c * fst c * (fst c * fst c) ^ j * dot (snd c) (snd c) n)
    with (fst c * fst c * ((fst c * fst c) ^ j * dot (snd c) (snd c) n))
    by ring.
  apply Rmult_le_compat_r; assumption.
Qed.

Lemma moment_cons (n : nat) (sv : R) (p : list R) (rest : list (R * list R))
  (j : nat) :
  moment n ((sv, p) :: rest) j = (sv * sv) ^ j * dot p p n + moment n rest j.
Proof. reflexivity. Qed.

(** The estimates of [sigma] on an expansion whose first component is the
    one of largest singular value. *)
Lemma sigma_at_converges (W u : list R) (m n : nat) (sv s2 : R) (p : list R)
  (rest : list (R * list R)) (tol : R) :
  singular_expansion W u m n ((sv, p) :: rest) ->
  0 < dot p p n ->
  Forall (fun c => fst c <= s2) rest -> s2 < sv ->
  2 * default_epsilon < tol ->
  exists N, forall k, (N <= k)%nat -> Rabs (sigma_at W u m n k - sv) < tol.
Proof.
  intros Hexp HP Hrest Hgap Htol.
  pose proof Hexp as [_ _ _ Hnn].
  inversion Hnn as [|? ? Hsv0 Hnn']; subst. cbn [fst] in Hsv0.
  pose proof default_epsilon_pos as He.
  assert (Hsig : forall k, sigma_at W u m n k
                           = sigseq default_epsilon 1 (nu_of W u m n) k).
  { intros k. apply iterate_scaled. }
  assert (Hnu0 : forall j, 0 <= nu_of W u m n j)
    by (intros j; apply norm2_nonneg).
  assert (Hsqr : forall j, nu_of W u m n j * nu_of W u m n j
                           = (sv * sv) ^ j * dot p p n + moment n rest j).
  { intros j. rewrite (nu_sqr_moment W u m n _ j Hexp). apply moment_cons. }
  destruct Hsv0 as [Hsv|Hsv].
  - (* a positive largest singular value *)
    assert (Hgap' : 0 <= Rmax s2 0 < sv).
    { split; [apply Rmax_r|]. apply Rmax_lub_lt; lra. }
    assert (Hrest' : Forall (fun c => fst c <= Rmax s2 0) rest).
    { revert Hrest. apply List.Forall_impl. intros c Hc.
      pose proof (Rmax_l s2 0). lra. }
    pose proof (fun j => moment_contracts n rest _ j Hnn' Hrest') as Hcon.
    pose proof (moment_nu_pos sv (Rmax s2 0) (dot p p n) (moment n rest)
                  (nu_of W u m n) Hgap' HP (moment_nonneg n rest) Hnu0 Hsqr)
      as Hpos.
    pose proof (moment_nu_upper sv (Rmax s2 0) (dot p p n) (moment n rest)
                  (nu_of W u m n) Hgap' (moment_nonneg n rest) Hcon Hnu0 Hsqr)
      as Hup.
    pose proof (moment_nu_lower sv (Rmax s2 0) (dot p p n) (moment n rest)
                  (nu_of W u m n) Hgap' HP (moment_nonneg n rest) Hcon Hnu0
                  Hsqr) as Hlow.
    destruct (sigseq_converges default_epsilon sv 1 (nu_of W u m n) He
                Rlt_0_1 Hpos Hup Hlow tol Htol) as [N HN].
    exists N. intros k Hk. rewrite Hsig. apply HN, Hk.
  - (* the zero matrix: every estimate is zero *)
    subst sv. exists 0%nat. intros k _. rewrite Hsig.
    assert (Hrest0 : rest = []).
    { destruct rest as [|c rest']; [reflexivity|].
      inversion Hrest; subst. inversion Hnn'; subst. lra. }
    subst rest.
    assert (Hz : nu_of W u m n (2 * k + 2) = 0).
    { pose proof (Hsqr (2 * k + 2)%nat) as H.
      replace (2 * k + 2)%nat with (S (2 * k + 1)) in H by lia.
      cbn [pow moment map Rsum fold_right] in H.
      replace (2 * k + 2)%nat with (S (2 * k + 1)) by lia.
      pose proof (Hnu0 (S (2 * k + 1))) as H0. nra. }
    unfold sigseq, bseq. rewrite Hz.
    replace (cseq default_epsilon 1 (nu_of W u m n) k * 0
             / (aseq default_epsilon 1 (nu_of W u m n) k + default_epsilon))
      with 0 by (unfold Rdiv; ring).
    replace (0 * 0 / (0 + default_epsilon) - 0) with 0
      by (unfold Rdiv; ring).
    rewrite Rabs_R0. lra.
Qed.

(** What the expansion says about the norms of the images. *)
Lemma expansion_norms (W u : list R) (m n : nat) (sv s2 : R) (p : list R)
  (rest : list (R * list R)) :
  singular_expansion W u m n ((sv, p) :: rest) ->
  0 < dot p p n ->
  Forall (fun c => fst c <= s2) rest -> s2 < sv -> 0 < sv ->
  (forall j, 0 < nu_of W u m n j)
  /\ (forall j, nu_of W u m n (S j) <= sv * nu_of W u m n j).
Proof.
  intros Hexp HP Hrest Hgap Hsv.
  pose proof Hexp as [_ _ _ Hnn].
  inversion Hnn as [|? ? _ Hnn']; subst.
  assert (Hnu0 : forall j, 0 <= nu_of W u m n j)
    by (intros j; apply norm2_nonneg).
  assert (Hsqr : forall j, nu_of W u m n j * nu_of W u m n j
                           = (sv * sv) ^ j * dot p p n + moment n rest j).
  { intros j. rewrite (nu_sqr_moment W u m n _ j Hexp). apply moment_cons. }
  assert (Hgap' : 0 <= Rmax s2 0 < sv).
  { split; [apply Rmax_r|]. apply Rmax_lub_lt; lra. }
  assert (Hrest' : Forall (fun c => fst c <= Rmax s2 0) rest).
  { revert Hrest. apply List.Forall_impl. intros c Hc.
    pose proof (Rmax_l s2 0). lra. }
  pose proof (fun j => moment_contracts n rest _ j Hnn' Hrest') as Hcon.
  split.
  - apply (moment_nu_pos sv (Rmax s2 0) (dot p p n) (moment n rest)
             (nu_of W u m n) Hgap' HP (moment_nonneg n rest) Hnu0 Hsqr).
  - apply (moment_nu_upper sv (Rmax s2 0) (dot p p n) (moment n rest)
             (nu_of W u m n) Hgap' (moment_nonneg n rest) Hcon Hnu0 Hsqr).
Qed.

(** The estimates never reach the largest singular value met by [u]. *)
Lemma sigma_at_below (W u : list R) (m n : nat) (sv s2 : R) (p : list R)
  (rest : list (R * list R)) (k : nat) :
  singular_expansion W u m n ((sv, p) :: rest) ->
  0 < dot p p n ->
  Forall (fun c => fst c <= s2) rest -> s2 < sv -> 0 < sv ->
  0 < sigma_at W u m n k < sv.
Proof.
  intros Hexp HP Hrest Hgap Hsv.
  destruct (expansion_norms W u m n sv s2 p rest Hexp HP Hrest Hgap Hsv)
    as [Hpos Hup].
  replace (sigma_at W u m n k)
    with (sigseq default_epsilon 1 (nu_of W u m n) k)
    by (symmetry; apply iterate_scaled).
  apply (sigseq_bounds default_epsilon sv 1 (nu_of W u m n)
           default_epsilon_pos Rlt_0_1 Hpos Hup k).
Qed.

(** ** Successive forward passes on a fixed kernel *)

Lemma forward_passes_state (kernel : tensor) (iteration : Z) (name : string)
  (w : world) (dims : list nat) (n k : nat) :
  shape kernel = dims ++ [n] -> wf kernel -> (0 < n)%nat ->
  u_ready w name n ->
  u_ready (forward_passes kernel iteration name k w) name n
  /\ scope (forward_passes kernel iteration name k w) = scope w
  /\ data (persisted_u (forward_passes kernel iteration name k w) name n)
     = iterate (data kernel) (data (persisted_u w name n)) (numel dims) n k.
Proof.
  intros Hs Wk Hn Hu.
  set (u0 := data (persisted_u w name n)).
  induction k as [|k (IHu & IHs & IHd)];
    cbn [forward_passes iterate]; [auto|].
  set (wk := forward_passes kernel iteration name k w) in *.
  rewrite (kernel_spectral_norm_eval kernel iteration name wk dims n Hs Wk Hn
             IHu).
  cbn [snd]. rewrite IHd.
  set (u_hat := fst (fst (step (data kernel) (iterate (data kernel) u0
                                                (numel dims) n k)
                            (numel dims) n))).
  unfold u_ready, persisted_u, u_key.
  cbn [scope variables set_variables].
  rewrite lookup_insert_eq. cbn [default data shape]. auto.
Qed.

Lemma forward_pass_value (kernel : tensor) (iteration : Z) (name : string)
  (w : world) (dims : list nat) (n k : nat) :
  shape kernel = dims ++ [n] -> wf kernel -> (0 < n)%nat ->
  u_ready w name n ->
  fst (kernel_spectral_norm kernel iteration name
         (forward_passes kernel iteration name k w))
  = Ok (normalized_kernel kernel
          (sigma_at (data kernel) (data (persisted_u w name n))
                    (numel dims) n k)).
Proof.
  intros Hs Wk Hn Hu.
  destruct (forward_passes_state kernel iteration name w dims n k Hs Wk Hn Hu)
    as (Hku & _ & Hkd).
  rewrite (kernel_spectral_norm_eval kernel iteration name _ dims n Hs Wk Hn
             Hku).
  cbn [fst]. rewrite Hkd. reflexivity.
Qed.

(** C6 (amended). For a fixed kernel whose reshaped matrix has largest
    singular value [sv], let the persisted [u] be the sum of mutually
    orthogonal right-singular vectors: one, not zero, of singular value [sv]
    and the others of singular values at most [s2 < sv].  Then for every
    tolerance of at least a thousandth of [sv] and at least [10^-9] the
    [sigma] by which successive forward passes of [kernel_spectral_norm]
    divide the kernel is, from some pass on, within the tolerance of [sv].
    The statement is about exact arithmetic, and it is limited to what
    float32 resolves: a tolerance far above its relative precision of
    [2^-24] and above the bias of [2 * epsilon] that the [epsilon] of the
    norms leaves, and [sv] and the norm of [u] at most [10^6], where no
    intermediate value overflows. *)
Theorem kernel_spectral_norm_converges (kernel : tensor) (iteration : Z)
  (name : string) (w : world) (dims : list nat) (n : nat) (sv s2 : R)
  (p : list R) (rest : list (R * list R)) (tol : R) :
  shape kernel = dims ++ [n] -> wf kernel -> (0 < n)%nat ->
  u_ready w name n ->
  largest_singular_value (data kernel) (numel dims) n sv ->
  singular_expansion (data kernel) (data (persisted_u w name n))
    (numel dims) n ((sv, p) :: rest) ->
  0 < dot p p n ->
  Forall (fun c => fst c <= s2) rest -> s2 < sv ->
  sv <= 1000000 -> norm2 (data (persisted_u w name n)) <= 1000000 ->
  1 / 1000000000 <= tol -> sv / 1000 <= tol ->
  exists N, forall k, (N <= k)%nat ->
    exists sigma,
      fst (kernel_spectral_norm kernel iteration name
             (forward_passes kernel iteration name k w))
      = Ok (normalized_kernel kernel sigma)
      /\ Rabs (sigma - sv) < tol.
Proof.
  intros Hs Wk Hn Hu _ Hexp HP Hrest Hgap _ _ Hfloor _.
  assert (Htol : 2 * default_epsilon < tol)
    by (unfold default_epsilon; lra).
  destruct (sigma_at_converges _ _ _ _ sv s2 p rest tol Hexp HP Hrest Hgap
              Htol) as [N HN].
  exists N. intros k Hk. eexists. split.
  - apply (forward_pass_value kernel iteration name w dims n k Hs Wk Hn Hu).
  - apply HN, Hk.
Qed.

Lemma pair_eq (a b c d : R) : a = c -> b = d -> [a; b] = [c; d].
Proof. intros -> ->. reflexivity. Qed.

Lemma gram_diag (a b : R) : gram [2; 0; 0; 1] [a; b] 2 2 = [4 * a; b].
Proof.
  unfold gram, vec_mat, vec_mat_t.
  cbn [map seq nth Rsum fold_right Nat.mul Nat.add].
  apply pair_eq; lra.
Qed.

Lemma norm2_pair (a b : R) : norm2 [a; b] = sqrt (a * a + b * b).
Proof.
  unfold norm2. cbn [map Rsum fold_right]. f_equal. lra.
Qed.

Lemma largest_singular_value_diag :
  largest_singular_value [2; 0; 0; 1] 2 2 2.
Proof.
  split.
  - intros [|a [|b [|c x]]] Hx; try discriminate Hx.
    unfold vec_mat_t. cbn [map seq nth Rsum fold_right Nat.mul Nat.add].
    rewrite !norm2_pair.
    apply Rle_trans with (sqrt (2 * 2 * (a * a + b * b))).
    + apply sqrt_le_1_alt. nra.
    + rewrite sqrt_mult_alt by lra. rewrite sqrt_square by lra. lra.
  - exists [1; 0]. split; [reflexivity|].
    unfold vec_mat_t. cbn [map seq nth Rsum fold_right Nat.mul Nat.add].
    rewrite !norm2_pair. split.
    + replace (1 * 1 + 0 * 0) with 1 by lra. apply sqrt_1.
    + replace ((1 * 2 + (0 * 0 + 0)) * (1 * 2 + (0 * 0 + 0))
               + (1 * 0 + (0 * 1 + 0)) * (1 * 0 + (0 * 1 + 0)))
        with (2 * 2) by lra.
      apply sqrt_square. lra.
Qed.

Lemma dot_pair (a b c d : R) : dot [a; b] [c; d] 2 = a * c + b * d.
Proof. unfold dot. cbn [map seq nth Rsum fold_right]. lra. Qed.

(** [u = [1; 1]] meets both singular directions of [diag(2, 1)]. *)
Lemma expansion_diag_both :
  singular_expansion [2; 0; 0; 1] [1; 1] 2 2 [(2, [1; 0]); (1, [0; 1])].
Proof.
  split.
  - cbn [map snd vsum]. unfold vadd.
    cbn [map seq nth repeat]. apply pair_eq; lra.
  - apply List.Forall_cons; [|apply List.Forall_cons; [|apply List.Forall_nil]];
      cbn [fst snd]; rewrite gram_diag; unfold vscale;
      cbn [map]; apply pair_eq; lra.
  - apply FOP_cons; [|apply FOP_cons; [apply List.Forall_nil | apply FOP_nil]].
    apply List.Forall_cons; [|apply List.Forall_nil].
    cbn [snd]. rewrite dot_pair. lra.
  - apply List.Forall_cons; [|apply List.Forall_cons; [|apply List.Forall_nil]];
      cbn [fst]; lra.
Qed.

(** [u = [0; 1]] lies in the direction of the singular value 1 alone. *)
Lemma expansion_diag_second :
  singular_expansion [2; 0; 0; 1] [0; 1] 2 2 [(1, [0; 1])].
Proof.
  split.
  - cbn [map snd vsum]. unfold vadd.
    cbn [map seq nth repeat]. apply pair_eq; lra.
  - apply List.Forall_cons; [|apply List.Forall_nil].
    cbn [fst snd]. rewrite gram_diag. unfold vscale.
    cbn [map]. apply pair_eq; lra.
  - apply FOP_cons; [apply List.Forall_nil | apply FOP_nil].
  - apply List.Forall_cons; [|apply List.Forall_nil]. cbn [fst]. lra.
Qed.

Lemma kernel_spectral_norm_converges_witness :
  exists N, forall k, (N <= k)%nat ->
    exists sigma,
      fst (kernel_spectral_norm diag_kernel 1 "kernel_sn"
             (forward_passes diag_kernel 1 "kernel_sn" k (diag_world [1; 1])))
      = Ok (normalized_kernel diag_kernel sigma)
      /\ Rabs (sigma - 2) < 1 / 100.
Proof.
  apply (kernel_spectral_norm_converges diag_kernel 1 "kernel_sn"
           (diag_world [1; 1]) [1; 1; 2]%nat 2 2 1 [1; 0] [(1, [0; 1])]
           (1 / 100)).
  - reflexivity.
  - reflexivity.
  - lia.
  - reflexivity.
  - exact largest_singular_value_diag.
  - exact expansion_diag_both.
  - rewrite dot_pair. lra.
  - apply List.Forall_cons; [|apply List.Forall_nil]. cbn [fst]. lra.
  - lra.
  - lra.
  - change (data (persisted_u (diag_world [1; 1]) "kernel_sn" 2))
      with [1; 1].
    rewrite norm2_pair.
    apply Rle_trans with (sqrt (2 * 2)).
    + apply sqrt_le_1_alt. lra.
    + rewrite sqrt_square by lra. lra.
  - lra.
  - lra.
Defined.

(** C6 (counterexample). The reshaped kernel [diag(2, 1)] has largest
    singular value 2, but from the persisted [u = [0; 1]] every forward pass
    divides the kernel by a [sigma] of at most 1, at distance at least 1 from
    the largest singular value. *)
Lemma power_iteration_misses_largest_singular_value :
  largest_singular_value (data diag_kernel) 2 2 2
  /\ forall k,
       exists sigma,
         fst (kernel_spectral_norm diag_kernel 1 "kernel_sn"
                (forward_passes diag_kernel 1 "kernel_sn" k
                   (diag_world [0; 1])))
         = Ok (normalized_kernel diag_kernel sigma)
         /\ sigma <= 1 /\ 1 <= Rabs (sigma - 2).
Proof.
  split; [exact largest_singular_value_diag|]. intros k. eexists. split.
  - apply (forward_pass_value diag_kernel 1 "kernel_sn" (diag_world [0; 1])
             [1; 1; 2]%nat 2 k eq_refl eq_refl (Nat.lt_0_succ 1) eq_refl).
  - assert (H : 0 < sigma_at [2; 0; 0; 1] [0; 1] 2 2 k < 1).
    { apply (sigma_at_below [2; 0; 0; 1] [0; 1] 2 2 1 0 [0; 1] [] k
               expansion_diag_second).
      + rewrite dot_pair. lra.
      + constructor.
      + lra.
      + lra. }
    change (data diag_kernel) with [2; 0; 0; 1].
    change (data (persisted_u (diag_world [0; 1]) "kernel_sn" 2))
      with [0; 1].
    change (numel [1; 1; 2]%nat) with 2%nat.
    split; [lra|]. rewrite Rabs_left by lra. lra.
Qed.

(* ===================================================================== *)
(** ** IdentityModelRestorer.run *)

Lemma all_saved_spec (saved : gmap string tensor) (var_list : list variable) :
  forallb (fun v => bool_decide (is_Some (saved_for saved v))) var_list = false
  <-> exists v, In v var_list /\ saved_for saved v = None.
Proof.
  induction var_list as [|v l IH]; cbn [forallb].
  - split; [discriminate | intros (v & [] & _)].
  - rewrite andb_false_iff, IH. split.
    + intros [H|(v' & Hin & Hv')].
      * exists v. split; [now left|].
        apply bool_decide_eq_false in H.
        destruct (saved_for saved v); [|reflexivity].
        exfalso. apply H. eauto.
      * exists v'. split; [now right | exact Hv'].
    + intros (v' & [<-|Hin] & Hv').
      * left. apply bool_decide_eq_false. rewrite Hv'. intros [t Ht].
        discriminate.
      * right. eauto.
Qed.

Lemma all_saved_true (saved : gmap string tensor) (var_list : list variable) :
  forallb (fun v => bool_decide (is_Some (saved_for saved v))) var_list = true
  -> forall v, In v var_list -> saved_for saved v = saved !! var_name v.
Proof.
  intros H v Hin. rewrite forallb_forall in H. specialize (H v Hin).
  apply bool_decide_eq_true in H. destruct H as [t Ht]. rewrite Ht.
  unfold saved_for in Ht. destruct (saved !! var_name v) as [t'|]; [|discriminate].
  destruct (decide (shape t' = var_shape v)); congruence.
Qed.

Lemma restore_all_snoc (saved : gmap string tensor) (l : list variable)
  (v : variable) (vars : gmap string tensor) :
  restore_all saved (l ++ [v]) vars
  = match saved_for saved v with
    | Some t => <[var_name v := t]> (restore_all saved l vars)
    | None => restore_all saved l vars
    end.
Proof. unfold restore_all. rewrite fold_left_app. reflexivity. Qed.

Lemma restore_all_restored (saved : gmap string tensor)
  (var_list : list variable) (vars : gmap string tensor) :
  (forall v, In v var_list -> is_Some (saved_for saved v)) ->
  forall v, In v var_list ->
            restore_all saved var_list vars !! var_name v = saved_for saved v.
Proof.
  induction var_list as [|v0 l IH] using rev_ind; intros Hall v Hin.
  - destruct Hin.
  - rewrite restore_all_snoc.
    assert (Hin0 : In v0 (l ++ [v0])) by (apply in_or_app; right; now left).
    destruct (Hall v0 Hin0) as [t0 Ht0].
    rewrite Ht0.
    destruct (decide (var_name v = var_name v0)) as [E|NE].
    + rewrite E, lookup_insert_eq.
      destruct (Hall v Hin) as [t Ht]. rewrite Ht.
      unfold saved_for in Ht, Ht0. rewrite E in Ht.
      destruct (saved !! var_name v0) as [t'|]; [|discriminate].
      destruct (decide (shape t' = var_shape v)); [|discriminate].
      destruct (decide (shape t' = var_shape v0)); [|discriminate].
      congruence.
    + rewrite lookup_insert_ne by congruence.
      apply in_app_or in Hin. destruct Hin as [Hin|[->|[]]]; [|congruence].
      apply IH; [|exact Hin].
      intros v' Hv'. apply Hall, in_or_app. now left.
Qed.

Lemma restore_all_others (saved : gmap string tensor)
  (var_list : list variable) (vars : gmap string tensor) (k : string) :
  (forall v, In v var_list -> var_name v <> k) ->
  restore_all saved var_list vars !! k = vars !! k.
Proof.
  induction var_list as [|v0 l IH] using rev_ind; intros Hk; [reflexivity|].
  rewrite restore_all_snoc.
  assert (IH' : restore_all saved l vars !! k = vars !! k).
  { apply IH. intros v Hv. apply Hk, in_or_app. now left. }
  destruct (saved_for saved v0); [|exact IH'].
  rewrite lookup_insert_ne; [exact IH'|].
  apply Hk, in_or_app. right. now left.
Qed.

Lemma run_unfold (mw : list variable) (path : string) (w : world) :
  run (init mw path) w
  = match checkpoint_at w path with
    | Some saved =>
        if forallb (fun v => bool_decide (is_Some (saved_for saved v))) mw
        then (Ok tt, set_log (fun l => l ++ [restored_line path])
                       (set_variables (restore_all saved mw) w))
        else (Raise NotFoundError,
              set_variables
                (restore_all saved (List.filter (assigned_before_abort w) mw))
                w)
    | None => (Raise NotFoundError, w)
    end.
Proof.
  unfold run, init, bind, Saver_restore, checkpoint_at, callback_log.
  cbn [_model_weights _tf_checkpoint_path].
  destruct (files w !! path) as [[payload|saved]|]; try reflexivity.
  destruct (forallb _ mw); reflexivity.
Qed.

(** What a restore can leave in a variable: its old value or the saved one. *)
Lemma restore_all_old_or_saved (saved : gmap string tensor)
  (var_list : list variable) (vars : gmap string tensor) (k : string) :
  restore_all saved var_list vars !! k = vars !! k
  \/ restore_all saved var_list vars !! k = saved !! k.
Proof.
  induction var_list as [|v0 l IH] using rev_ind; [now left|].
  rewrite restore_all_snoc.
  destruct (saved_for saved v0) as [t|] eqn:E; [|exact IH].
  destruct (decide (var_name v0 = k)) as [<-|NE].
  - right. rewrite lookup_insert_eq. unfold saved_for in E.
    destruct (saved !! var_name v0) as [t'|]; [|discriminate].
    destruct (decide (shape t' = var_shape v0)); congruence.
  - rewrite lookup_insert_ne by exact NE. exact IH.
Qed.

(** C7 (amended). [IdentityModelRestorer.run] reads the checkpoint at the
    stored path for the stored list of variable handles.  When the path holds
    a checkpoint with a saved tensor of the name and shape of every handle it
    succeeds: every listed variable holds its saved tensor, the other
    variables are untouched and one line is logged.  Otherwise, when the path
    holds no checkpoint or some handle has no saved tensor of its name and
    shape, it raises: nothing is logged, no file and no variable outside the
    list changes, and every variable holds its old value or its saved one;
    that no listed variable has been restored is not guaranteed. *)
Theorem identity_model_restorer_run (mw : list variable) (path : string)
  (w : world) :
  let self := init mw path in
  (forall saved,
      checkpoint_at w path = Some saved ->
      (forall v, In v mw -> saved_for saved v <> None) ->
      exists w',
        run self w = (Ok tt, w')
        /\ (forall v, In v mw ->
                      variables w' !! var_name v = saved !! var_name v)
        /\ (forall k, (forall v, In v mw -> var_name v <> k) ->
                      variables w' !! k = variables w !! k)
        /\ files w' = files w
        /\ log w' = log w ++ [restored_line path])
  /\ (checkpoint_at w path = None
      \/ (exists saved v, checkpoint_at w path = Some saved
                          /\ In v mw /\ saved_for saved v = None) ->
      exists e w',
        run self w = (Raise e, w')
        /\ log w' = log w /\ files w' = files w
        /\ (forall k, (forall v, In v mw -> var_name v <> k) ->
                      variables w' !! k = variables w !! k)
        /\ (forall k, variables w' !! k = variables w !! k
                      \/ exists saved, checkpoint_at w path = Some saved
                                       /\ variables w' !! k = saved !! k)).
Proof.
  cbv zeta. rewrite run_unfold. split.
  - intros saved Hc Hall. rewrite Hc.
    assert (Hsome : forall v, In v mw -> is_Some (saved_for saved v)).
    { intros v Hv. specialize (Hall v Hv).
      destruct (saved_for saved v); [eauto | contradiction]. }
    assert (Hb : forallb (fun v => bool_decide (is_Some (saved_for saved v)))
                   mw = true).
    { apply forallb_forall. intros v Hv. apply bool_decide_eq_true.
      apply Hsome, Hv. }
    rewrite Hb. eexists. split; [reflexivity|].
    cbn [variables files log set_log set_variables].
    split; [|split; [|split; reflexivity]].
    + intros v Hin.
      rewrite (restore_all_restored saved mw (variables w) Hsome v Hin).
      apply (all_saved_true saved mw Hb v Hin).
    + intros k Hk. apply restore_all_others, Hk.
  - intros [Hc|(saved & v & Hc & Hin & Hv)]; rewrite Hc.
    + exists NotFoundError, w. split; [reflexivity|].
      split; [reflexivity|]. split; [reflexivity|].
      split; [reflexivity|]. intros k. now left.
    + assert (Hb : forallb (fun v => bool_decide (is_Some (saved_for saved v)))
                     mw = false) by (apply all_saved_spec; eauto).
      rewrite Hb. eexists _, _. split; [reflexivity|].
      cbn [variables files log set_variables].
      split; [reflexivity|]. split; [reflexivity|]. split.
      * intros k Hk. apply restore_all_others. intros v' Hv'.
        apply Hk. apply filter_In in Hv'. apply Hv'.
      * intros k.
        destruct (restore_all_old_or_saved saved
                    (List.filter (assigned_before_abort w) mw) (variables w) k)
          as [E|E]; [left; exact E | right; eauto].
Qed.

(** C7 (counterexample). The checkpoint saves [a] and not [b]; a restore of
    both raises, and [a] no longer holds the value it had. *)
Lemma identity_model_restorer_failure_restores :
  exists e w',
    run (init [Variable_ "a" [1%nat]; Variable_ "b" [1%nat]] "model.ckpt")
        partial_ckpt_world
    = (Raise e, w')
    /\ variables partial_ckpt_world !! "a"%string = Some (Tensor [1%nat] [0])
    /\ variables w' !! "a"%string = Some (Tensor [1%nat] [2])
    /\ variables w' !! "a"%string <> variables partial_ckpt_world !! "a"%string.
Proof.
  eexists _, _. split; [reflexivity|].
  split; [reflexivity|].
  assert (E : restore_all (<["a"%string := Tensor [1%nat] [2]]> ∅)
                [Variable_ "a" [1%nat]; Variable_ "b" [1%nat]]
                (variables partial_ckpt_world) !! "a"%string
              = Some (Tensor [1%nat] [2])) by reflexivity.
  split.
  - exact E.
  - cbn [snd variables set_variables]. intros H.
    assert (H2 : Some (Tensor [1%nat] [2]) = Some (Tensor [1%nat] [0])).
    { etransitivity; [symmetry; exact E|]. etransitivity; [exact H|].
      reflexivity. }
    injection H2 as H2. lra.
Qed.

(* ===================================================================== *)
(** ** The weights cache of gan_identity_loss *)

Lemma offline_ret {A} (a : A) : offline (ret a).
Proof. intros w. split; reflexivity. Qed.

Lemma offline_lift {A} (r : result A) : offline (lift r).
Proof. intros w. split; reflexivity. Qed.

Lemma offline_scalar_summary (name : string) (value : R) :
  offline (scalar_summary name value).
Proof. intros w. split; reflexivity. Qed.

Lemma offline_open_weights (path : string) : offline (open_weights path).
Proof.
  intros w. unfold offline_at, open_weights. split.
  - destruct (files w !! path) as [[|]|]; reflexivity.
  - intros net wr. cbn [files set_network].
    destruct (files w !! path) as [[|]|]; reflexivity.
Qed.

Lemma offline_at_bind {A B} (m : M A) (k : A -> M B) (w : world) :
  offline_at m w -> (forall a, offline (k a)) -> offline_at (bind m k) w.
Proof.
  intros [Hf Hn] Hk. unfold offline_at, bind. split.
  - destruct (m w) as [[a|e] w1] eqn:E; cbn [snd] in *; [|exact Hf].
    destruct (Hk a w1) as [Hf1 _]. congruence.
  - intros net wr. rewrite Hn.
    destruct (m w) as [[a|e] w1] eqn:E; cbn [fst snd]; [|reflexivity].
    destruct (Hk a w1) as [_ Hn1]. rewrite Hn1.
    destruct (k a w1); reflexivity.
Qed.

Lemma offline_bind {A B} (m : M A) (k : A -> M B) :
  offline m -> (forall a, offline (k a)) -> offline (bind m k).
Proof. intros Hm Hk w. apply offline_at_bind; auto. Qed.

Lemma offline_at_variable_scope {A} (name : string) (m : M A) (w : world) :
  offline_at m (set_scope (scope w ++ name ++ "/") w) ->
  offline_at (variable_scope name m) w.
Proof.
  intros [Hf Hn]. unfold offline_at, variable_scope. split.
  - destruct (m _) as [r w1]. cbn [snd] in *. exact Hf.
  - intros net wr. cbn [scope set_network].
    change (set_scope (scope w ++ name ++ "/") (set_network net wr w))
      with (set_network net wr (set_scope (scope w ++ name ++ "/") w)).
    rewrite Hn. destruct (m _) as [r w1]. reflexivity.
Qed.

Lemma get_file_cached (fname origin subdir : string) (w : world) :
  is_Some (files w !! (subdir ++ "/" ++ fname)%string) ->
  offline_at (get_file fname origin subdir) w.
Proof.
  intros [f Hc]. unfold offline_at, get_file. cbn [files set_network].
  rewrite Hc. split; reflexivity.
Qed.

(** A scoped computation that starts by fetching a file and then works
    offline: what happens to the cache. *)
Lemma fetch_then_offline {B} (fname origin subdir name : string)
  (k : string -> M B) (w : world) :
  (forall p, offline (k p)) ->
  let m := variable_scope name (bind (get_file fname origin subdir) k) in
  let path := (subdir ++ "/" ++ fname)%string in
  match files w !! path with
  | Some _ => offline_at m w
  | None =>
      match network w !! origin with
      | None => m w = (Raise DownloadError, w)
      | Some payload =>
          if cache_writable w
          then files (snd (m w)) = <[path := WeightsFile payload]> (files w)
               /\ offline_at m (snd (m w))
          else m w = (Raise OSError, w)
      end
  end.
Proof.
  intros Hk m path.
  assert (Hcached : forall w', is_Some (files w' !! path) -> offline_at m w').
  { intros w' Hc. apply offline_at_variable_scope, offline_at_bind; [|exact Hk].
    apply get_file_cached. exact Hc. }
  destruct (files w !! path) as [f|] eqn:Hc; [apply Hcached; eauto|].
  unfold m, variable_scope, bind, get_file.
  cbn [files network cache_writable set_scope]. fold path. rewrite Hc.
  destruct (network w !! origin) as [payload|];
    [|rewrite set_scope_back; reflexivity].
  destruct (cache_writable w); [|rewrite set_scope_back; reflexivity].
  fold (bind (get_file fname origin subdir) k).
  set (w1 := set_files _ _).
  destruct (Hk path w1) as [Hf _].
  destruct (k path w1) as [r w2] eqn:E. cbn [snd] in *.
  assert (Hfiles : files (set_scope (scope w) w2)
                   = <[path := WeightsFile payload]> (files w)).
  { cbn [files set_scope]. rewrite Hf. reflexivity. }
  split; [exact Hfiles|].
  apply Hcached. rewrite Hfiles, lookup_insert_eq. eauto.
Qed.

Ltac offline_tail :=
  repeat first
    [ apply offline_ret
    | apply offline_lift
    | apply offline_scalar_summary
    | apply offline_open_weights
    | apply offline_bind; [|intros ?] ].

(** C8. [gan_identity_loss] fetches the ResNet50 VGGFace weights from their
    fixed URL into [models/vggface] only when the cache does not hold the file
    yet.  With the file cached the call leaves the files as they are and its
    result does not depend on the network; without it, the call raises when the
    URL cannot be fetched or the cache cannot be written, and otherwise stores
    the payload at the cache path, after which a further call reuses it. *)
Theorem gan_identity_loss_weights_fetch
  (model : Type) (VGGFace_resnet50 : model)
  (load_weights : model -> list Byte.byte -> result model)
  (call : model -> tensor -> result tensor)
  (resize_images : tensor -> list nat -> result tensor)
  (normalized_cosine_distance : tensor -> tensor -> result R)
  (complete ref : tensor) (name : string) (w : world) :
  let loss := gan_identity_loss model VGGFace_resnet50 load_weights call
                resize_images normalized_cosine_distance complete ref name in
  match files w !! weights_cache_path with
  | Some _ =>
      files (snd (loss w)) = files w
      /\ forall net wr, fst (loss (set_network net wr w)) = fst (loss w)
  | None =>
      match network w !! RESNET50_WEIGHTS_PATH_NO_TOP with
      | None => loss w = (Raise DownloadError, w)
      | Some payload =>
          if cache_writable w
          then files (snd (loss w))
               = <[weights_cache_path := WeightsFile payload]> (files w)
               /\ files (snd (loss (snd (loss w)))) = files (snd (loss w))
               /\ forall net wr,
                    fst (loss (set_network net wr (snd (loss w))))
                    = fst (loss (snd (loss w)))
          else loss w = (Raise OSError, w)
      end
  end.
Proof.
  intros loss. unfold loss, gan_identity_loss.
  match goal with
  | |- context [variable_scope name (bind (get_file ?f ?o ?d) ?k)] =>
      pose proof (fetch_then_offline f o d name k w) as H
  end.
  cbv zeta in H.
  change (VGGFACE_DIR ++ "/" ++ "rcmalli_vggface_tf_notop_resnet50.h5")%string
    with weights_cache_path in H.
  assert (Hoff : forall A (m : M A) w0,
             offline_at m w0 ->
             files (snd (m w0)) = files w0
             /\ forall net wr, fst (m (set_network net wr w0)) = fst (m w0)).
  { intros A m w0 [Hf Hn]. split; [exact Hf|].
    intros net wr. rewrite Hn. reflexivity. }
  destruct (files w !! weights_cache_path).
  - apply Hoff, H. intros p. offline_tail.
  - destruct (network w !! RESNET50_WEIGHTS_PATH_NO_TOP).
    + destruct (cache_writable w).
      * destruct H as [H1 H2]; [intros p; offline_tail|].
        split; [exact H1|]. apply Hoff, H2.
      * apply H. intros p. offline_tail.
    + apply H. intros p. offline_tail.
Qed.

(* ===================================================================== *)

(** ** The restorer in a training run *)

Lemma bind_assoc {A B C} (m : M A) (k : A -> M B) (h : B -> M C) (w : world) :
  bind (bind m k) h w = bind m (fun a => bind (k a) h) w.
Proof.
  unfold bind. destruct (m w) as [[a|e] w1]; [|reflexivity].
  destruct (k a w1) as [[b|e] w2]; reflexivity.
Qed.

Lemma bind_ext {A B} (m m' : M A) (k k' : A -> M B) (w : world) :
  m w = m' w -> (forall a w1, k a w1 = k' a w1) -> bind m k w = bind m' k' w.
Proof.
  intros Hm Hk. unfold bind. rewrite Hm.
  destruct (m' w) as [[a|e] w1]; [apply Hk | reflexivity].
Qed.

Lemma bind_ret_l {A} (k : unit -> M A) (w : world) :
  bind (ret tt) k w = k tt w.
Proof. reflexivity. Qed.

Lemma run_once_callbacks_app (loc : CallbackLoc) (cbs1 cbs2 : list Callback)
  (w : world) :
  run_once_callbacks loc (cbs1 ++ cbs2) w
  = bind (run_once_callbacks loc cbs1)
         (fun _ => run_once_callbacks loc cbs2) w.
Proof.
  revert w. induction cbs1 as [|[l r|l p r] cbs1 IH]; intros w;
    cbn [app run_once_callbacks].
  - reflexivity.
  - rewrite bind_assoc. apply bind_ext; [reflexivity|]. intros _ w1. apply IH.
  - apply IH.
Qed.

(** A once-callback of another location is invisible at [loc]. *)
Lemma run_once_callbacks_skip (loc l : CallbackLoc) (r : M unit)
  (cbs1 cbs2 : list Callback) (w : world) :
  l <> loc ->
  run_once_callbacks loc (cbs1 ++ OnceCallback l r :: cbs2) w
  = run_once_callbacks loc (cbs1 ++ cbs2) w.
Proof.
  intros Hl. rewrite !run_once_callbacks_app.
  apply bind_ext; [reflexivity|]. intros _ w1.
  cbn [run_once_callbacks]. destruct (decide (l = loc)); [contradiction|].
  reflexivity.
Qed.

(** Once-callbacks are invisible to the periodic dispatch. *)
Lemma run_periodic_callbacks_skip (loc l : CallbackLoc) (r : M unit)
  (step : nat) (cbs1 cbs2 : list Callback) (w : world) :
  run_periodic_callbacks loc step (cbs1 ++ OnceCallback l r :: cbs2) w
  = run_periodic_callbacks loc step (cbs1 ++ cbs2) w.
Proof.
  revert w. induction cbs1 as [|[l' r'|l' p r'] cbs1 IH]; intros w;
    cbn [app run_periodic_callbacks].
  - reflexivity.
  - apply IH.
  - apply bind_ext; [reflexivity|]. intros _ w1. apply IH.
Qed.

Lemma train_loop_skip (l : CallbackLoc) (r : M unit) (train_op : M unit)
  (cbs1 cbs2 : list Callback) (remaining step : nat) (w : world) :
  train_loop remaining step train_op (cbs1 ++ OnceCallback l r :: cbs2) w
  = train_loop remaining step train_op (cbs1 ++ cbs2) w.
Proof.
  revert step w. induction remaining as [|n IH]; intros step w;
    cbn [train_loop]; [reflexivity|].
  apply bind_ext; [apply run_periodic_callbacks_skip|]. intros _ w1.
  apply bind_ext; [reflexivity|]. intros _ w2.
  apply bind_ext; [apply run_periodic_callbacks_skip|]. intros _ w3.
  apply IH.
Qed.

Lemma train_after_start_skip (r : M unit) (train_op : M unit)
  (cbs1 cbs2 : list Callback) (max_iters : nat) (w : world) :
  train_after_start (cbs1 ++ OnceCallback train_start r :: cbs2)
    max_iters train_op w
  = train_after_start (cbs1 ++ cbs2) max_iters train_op w.
Proof.
  unfold train_after_start.
  apply bind_ext; [apply train_loop_skip|]. intros _ w1.
  apply run_once_callbacks_skip. discriminate.
Qed.

(** C9. The restorer is a once-callback registered for [train_start].  A
    training run with the restorer among its callbacks is: the [train_start]
    callbacks registered before it, then its [run], once, then the
    [train_start] callbacks registered after it, then what the run would do
    from there on without the restorer.  So [run] executes once, before the
    first step, and never after training has started. *)
Theorem identity_model_restorer_one_shot (mw : list variable) (path : string)
  (cbs1 cbs2 : list Callback) (max_iters : nat) (train_op : M unit)
  (w : world) :
  let restorer := init mw path in
  cb_loc restorer = train_start
  /\ as_callback restorer = OnceCallback train_start (run restorer)
  /\ train (cbs1 ++ as_callback restorer :: cbs2) max_iters train_op w
     = bind (run_once_callbacks train_start cbs1) (fun _ =>
       bind (run restorer) (fun _ =>
       bind (run_once_callbacks train_start cbs2) (fun _ =>
       train_after_start (cbs1 ++ cbs2) max_iters train_op))) w.
Proof.
  cbv zeta. split; [reflexivity|]. split; [reflexivity|].
  unfold train, as_callback. cbn [cb_loc init].
  rewrite (bind_ext _ _ _ (fun _ => train_after_start (cbs1 ++ cbs2)
                                      max_iters train_op)
             w (run_once_callbacks_app train_start cbs1 _ w)
             (fun _ w1 => train_after_start_skip _ train_op cbs1 cbs2
                            max_iters w1)).
  rewrite bind_assoc. apply bind_ext; [reflexivity|]. intros _ w1.
  cbn [run_once_callbacks].
  destruct (decide (train_start = train_start)); [|contradiction].
  rewrite bind_assoc. reflexivity.
Qed.

(* ===================================================================== *)
(** ** The restorer and the weights fetch at concrete inputs *)

Lemma identity_model_restorer_run_witness :
  variables (snd (run (init [Variable_ "w" [1%nat]] "model.ckpt") ckpt_world))
  !! "w"%string
  = Some (Tensor [1%nat] [2]).
Proof.
  destruct (proj1 (identity_model_restorer_run [Variable_ "w" [1%nat]]
                     "model.ckpt" ckpt_world)
              (<["w"%string := Tensor [1%nat] [2]]> ∅) eq_refl)
    as (w' & Hrun & Hv & _).
  - intros v [<-|[]]. discriminate.
  - rewrite Hrun. cbn [snd].
    exact (Hv (Variable_ "w" [1%nat]) (or_introl eq_refl)).
Defined.

Lemma gan_identity_loss_weights_fetch_witness :
  files (snd (gan_identity_loss unit tt (fun m _ => Ok m) (fun _ t => Ok t)
                (fun t _ => Ok t) (fun _ _ => Ok 0)
                (Tensor [1%nat] [0]) (Tensor [1%nat] [0])
                "gan_identity_loss" online_world))
  = <[weights_cache_path := WeightsFile [Byte.x01; Byte.x02]]> ∅.
Proof.
  exact (proj1 (gan_identity_loss_weights_fetch unit tt (fun m _ => Ok m)
                  (fun _ t => Ok t) (fun t _ => Ok t) (fun _ _ => Ok 0)
                  (Tensor [1%nat] [0]) (Tensor [1%nat] [0])
                  "gan_identity_loss" online_world)).
Defined.

Lemma identity_model_restorer_one_shot_witness :
  train [as_callback (init [Variable_ "w" [1%nat]] "model.ckpt")] 3 (ret tt)
        ckpt_world
  = bind (run (init [Variable_ "w" [1%nat]] "model.ckpt"))
         (fun _ => train_after_start [] 3 (ret tt)) ckpt_world.
Proof.
  exact (proj2 (proj2 (identity_model_restorer_one_shot
                         [Variable_ "w" [1%nat]] "model.ckpt" [] [] 3 (ret tt)
                         ckpt_world))).
Defined.
